(** * json_snake_case: a shallow embedding of [cmd/snake/main.go]

    The generator reads the struct declarations of a Go package and emits,
    for every requested type, a mirror struct whose fields carry snake-case
    [json] tags, a [MarshalJSON] method and a constructor.  This file embeds
    the string utilities ([CamelToSnake], [startsWithInitialism],
    [tagParser], [tagString]) and the emitting loop of [main], and states
    the properties of the specification over them.

    Conventions.
    - A Go [string] is a sequence of bytes: [list ascii].
    - A Go [int] index is a [nat]; the indexes of the program are
      non-negative and bounded by a string length (the one exception is
      noted at [fieldStep]).
    - A run-time panic (slice bounds, index out of range) is [None].
    - A [map[string]string] is a [gmap bytes bytes]. *)

From Stdlib Require Import ZArith NArith Ascii String.
From stdpp Require Import base option list gmap strings.

Local Open Scope Z_scope.

Abbreviation bytes := (list ascii).

(** Go string literals. *)
Definition B (s : string) : bytes := list_ascii_of_string s.

Definition byteZ (b : ascii) : Z := Z.of_N (N_of_ascii b).

(** ** Slices

    [s[lo:hi]] panics unless [lo <= hi <= len(s)]. *)

Definition slice (s : bytes) (lo hi : nat) : option bytes :=
  if ((lo <=? hi) && (hi <=? length s))%nat
  then Some (take (hi - lo) (drop lo s))
  else None.

(** [s[lo:]] *)
Definition sliceFrom (s : bytes) (lo : nat) : option bytes :=
  slice s lo (length s).

(** ** package unicode/utf8: decoding, as done by [[]rune(s)] *)

Module utf8.

Definition RuneError : Z := 0xFFFD.
Definition RuneSelf : Z := 0x80.

Definition maskx : Z := 0x3F.
Definition mask2 : Z := 0x1F.
Definition mask3 : Z := 0x0F.
Definition mask4 : Z := 0x07.

Definition locb : Z := 0x80.
Definition hicb : Z := 0xBF.

(** One entry of the table [first]: the kind of a leading byte, with the
    length of the sequence and the accepted range of its second byte. *)
Inductive firstInfo : Type :=
  | as_ : firstInfo
  | xx : firstInfo
  | lead (sz : nat) (lo hi : Z) : firstInfo.

Definition first (s0 : Z) : firstInfo :=
  if s0 <? 0x80 then as_
  else if s0 <? 0xC2 then xx
  else if s0 <? 0xE0 then lead 2 locb hicb
  else if s0 =? 0xE0 then lead 3 0xA0 hicb
  else if s0 =? 0xED then lead 3 locb 0x9F
  else if s0 <? 0xF0 then lead 3 locb hicb
  else if s0 =? 0xF0 then lead 4 0x90 hicb
  else if s0 <? 0xF4 then lead 4 locb hicb
  else if s0 =? 0xF4 then lead 4 locb 0x8F
  else xx.

(** [DecodeRuneInString]: the first rune of [s] and its width in bytes. *)
Definition DecodeRuneInString (s : bytes) : Z * nat :=
  match s with
  | [] => (RuneError, 0%nat)
  | c0 :: t0 =>
    let s0 := byteZ c0 in
    match first s0 with
    | as_ => (s0, 1%nat)
    | xx => (RuneError, 1%nat)
    | lead sz lo hi =>
      if (length s <? sz)%nat then (RuneError, 1%nat) else
      match t0 with
      | [] => (RuneError, 1%nat)
      | c1 :: t1 =>
        let s1 := byteZ c1 in
        if (s1 <? lo) || (hi <? s1) then (RuneError, 1%nat) else
        if (sz <=? 2)%nat then
          (Z.lor (Z.shiftl (Z.land s0 mask2) 6) (Z.land s1 maskx), 2%nat)
        else
        match t1 with
        | [] => (RuneError, 1%nat)
        | c2 :: t2 =>
          let s2 := byteZ c2 in
          if (s2 <? locb) || (hicb <? s2) then (RuneError, 1%nat) else
          if (sz <=? 3)%nat then
            (Z.lor (Z.lor (Z.shiftl (Z.land s0 mask3) 12)
                          (Z.shiftl (Z.land s1 maskx) 6))
                   (Z.land s2 maskx), 3%nat)
          else
          match t2 with
          | [] => (RuneError, 1%nat)
          | c3 :: _ =>
            let s3 := byteZ c3 in
            if (s3 <? locb) || (hicb <? s3) then (RuneError, 1%nat) else
            (Z.lor (Z.lor (Z.lor (Z.shiftl (Z.land s0 mask4) 18)
                                 (Z.shiftl (Z.land s1 maskx) 12))
                          (Z.shiftl (Z.land s2 maskx) 6))
                   (Z.land s3 maskx), 4%nat)
          end
        end
      end
    end
  end.

(** The conversion [[]rune(s)] decodes rune after rune; every step consumes
    at least one byte, so [length s] steps are enough. *)
Fixpoint decode (fuel : nat) (s : bytes) : list Z :=
  match fuel, s with
  | S fuel', _ :: _ =>
    let '(r, size) := DecodeRuneInString s in
    r :: decode fuel' (drop size s)
  | _, _ => []
  end.

Definition runes (s : bytes) : list Z := decode (length s) s.

End utf8.

(** ** package unicode and strings

    The Unicode tables beyond Latin-1 belong to the Go library, not to this
    program: they are left as the fields of a class. *)

Class UnicodeTables : Type := {
  (** [isExcludingLatin(Upper, r)], used for [r > MaxLatin1] *)
  upperExcludingLatin : Z -> bool;
  (** [strings.Map(unicode.ToLower, s)], used for [s] with a non-ASCII byte *)
  mapToLower : bytes -> bytes
}.

Module unicode.

Definition MaxLatin1 : Z := 0xFF.

(** The entries of [properties] with [pLu]: A-Z, and in Latin-1 the
    letters U+00C0-U+00D6 and U+00D8-U+00DE. *)
Definition latin1Upper (r : Z) : bool :=
  ((0x41 <=? r) && (r <=? 0x5A))
  || ((0xC0 <=? r) && (r <=? 0xD6))
  || ((0xD8 <=? r) && (r <=? 0xDE)).

Definition IsUpper `{UnicodeTables} (r : Z) : bool :=
  if (0 <=? r) && (r <=? MaxLatin1) then latin1Upper r
  else upperExcludingLatin r.

End unicode.

Module strings.

Definition isASCII (s : bytes) : bool :=
  forallb (fun c => byteZ c <? utf8.RuneSelf) s.

(** [c += 'a' - 'A'] for ['A' <= c && c <= 'Z'] *)
Definition lowerByte (c : ascii) : ascii :=
  if (0x41 <=? byteZ c) && (byteZ c <=? 0x5A)
  then ascii_of_N (N_of_ascii c + 32)
  else c.

(** [strings.ToLower]: the ASCII path rewrites A-Z byte by byte; any other
    string goes through [Map(unicode.ToLower, s)]. *)
Definition ToLower `{UnicodeTables} (s : bytes) : bytes :=
  if isASCII s then map lowerByte s else mapToLower s.

(** [strings.HasPrefix] *)
Definition HasPrefix (s pre : bytes) : bool :=
  bool_decide (take (length pre) s = pre).

(** [strings.TrimPrefix] *)
Definition TrimPrefix (s pre : bytes) : bytes :=
  if HasPrefix s pre then drop (length pre) s else s.

End strings.

(** ** [commonInitialisms] and [startsWithInitialism] *)

Definition initialisms : list string :=
  ["API"; "ASCII"; "CPU"; "CSS"; "DNS"; "EOF"; "GUID"; "HTML"; "HTTP";
   "HTTPS"; "ID"; "IP"; "JSON"; "LHS"; "QPS"; "RAM"; "RHS"; "RPC";
   "SLA"; "SMTP"; "SQL"; "SSH"; "TCP"; "TLS"; "TTL"; "UDP"; "UI";
   "UID"; "UUID"; "URI"; "URL"; "UTF8"; "VM"; "XML"; "XSRF"; "XSS"]%string.

(** The map literal: every key above, with the value [true]. *)
Definition commonInitialisms : gmap bytes bool :=
  list_to_map (map (fun k => (B k, true)) initialisms).

(** Indexing a [map[string]bool] with a missing key yields [false]. *)
Definition isInitialism (k : bytes) : bool :=
  default false (commonInitialisms !! k).

(** The loop [for i := 1; i <= 5; i++]: the guard [len(s) > i-1] keeps
    [s[:i]] in range, and a later (longer) match overwrites an earlier one. *)
Definition startsWithInitialism (s : bytes) : bytes :=
  foldl (fun initialism i =>
           if (i - 1 <? length s)%nat && isInitialism (take i s)
           then take i s else initialism)
        [] (seq 1 5).

(** ** [CamelToSnake] *)

Section CamelToSnake.
Context `{UnicodeTables}.

(** The state of the scanning loop is [(i, lastPos, words)].  [i] indexes
    the runes [rs], while [lastPos] and the slices index the bytes of [s],
    as in the source.  One unit of fuel is one evaluation of the loop
    condition. *)
Fixpoint scan (fuel : nat) (s : bytes) (rs : list Z)
    (i lastPos : nat) (words : list bytes) : option (nat * list bytes) :=
  match fuel with
  | O => None
  | S fuel' =>
    if (i <? length rs)%nat then
      if (0 <? i)%nat && unicode.IsUpper (nth i rs 0) then
        tl ← sliceFrom s lastPos;
        let initialism := startsWithInitialism tl in
        if bool_decide (initialism ≠ []) then
          let i' := (i + (length initialism - 1))%nat in
          scan fuel' s rs (S i') i' (words ++ [initialism])
        else
          w ← slice s lastPos i;
          scan fuel' s rs (S i) i (words ++ [w])
      else scan fuel' s rs (S i) lastPos words
    else Some (lastPos, words)
  end.

(** The final loop: words lowercased and joined by ["_"]. *)
Definition joinWords (words : list bytes) : bytes :=
  fst (foldl (fun '(result, k) word =>
                let result := if (0 <? k)%nat then result ++ B "_" else result in
                (result ++ strings.ToLower word, S k))
             ([], 0%nat) words).

Definition camelWords (s : bytes) : option (list bytes) :=
  let rs := utf8.runes s in
  '(lastPos, words) ← scan (S (length rs)) s rs 0 0 [];
  tl ← sliceFrom s lastPos;
  Some (if bool_decide (tl ≠ []) then words ++ [tl] else words).

Definition CamelToSnake (s : bytes) : option bytes :=
  joinWords <$> camelWords s.

End CamelToSnake.

(** ** [tagRegex]

    The pattern of [tagRegex], as a syntax tree: group 1 is a key, one or
    more characters of the class [0-9a-zA-Z,_=&()]; the optional group 2 is
    a colon, an optional space (group 3), a double quote, group 4 with zero
    or more characters of the class, and a closing double quote.

    The matcher backtracks with the priorities of package regexp: the
    leftmost match wins, and a greedy operator tries the longer alternative
    first.  Repetition is only applied to character classes, which is all
    the pattern needs. *)

Module regexp.

Inductive Regexp : Type :=
  | Lit (c : ascii)
  | Class (p : ascii -> bool)
  | Cat (r1 r2 : Regexp)
  | Quest (r : Regexp)
  | Star (p : ascii -> bool)
  | Plus (p : ascii -> bool)
  | Capture (n : nat) (r : Regexp).

(** Submatches found so far, by group number. *)
Abbreviation Caps := (gmap nat bytes).

Section Match.
Context {R : Type}.

(** [p*] on [s]: take one more character first, give it back when the
    rest of the pattern fails. *)
Fixpoint matchStar (p : ascii -> bool) (s : bytes) (caps : Caps)
    (k : bytes -> Caps -> option R) : option R :=
  match s with
  | c :: s' =>
    if p c then
      match matchStar p s' caps k with
      | Some x => Some x
      | None => k s caps
      end
    else k s caps
  | [] => k s caps
  end.

(** [matchAt r s caps k] matches [r] against a prefix of [s] and passes
    the remaining input to [k]. *)
Fixpoint matchAt (r : Regexp) (s : bytes) (caps : Caps)
    (k : bytes -> Caps -> option R) : option R :=
  match r with
  | Lit c =>
    match s with
    | c' :: s' => if bool_decide (c' = c) then k s' caps else None
    | [] => None
    end
  | Class p =>
    match s with
    | c' :: s' => if p c' then k s' caps else None
    | [] => None
    end
  | Cat r1 r2 => matchAt r1 s caps (fun s' caps' => matchAt r2 s' caps' k)
  | Quest r' =>
    match matchAt r' s caps k with
    | Some x => Some x
    | None => k s caps
    end
  | Star p => matchStar p s caps k
  | Plus p =>
    match s with
    | c' :: s' => if p c' then matchStar p s' caps k else None
    | [] => None
    end
  | Capture n r' =>
    matchAt r' s caps
      (fun s' caps' => k s' (<[n := take (length s - length s') s]> caps'))
  end.
End Match.

(** The leftmost match in [s]: its submatches and the input after it. *)
Fixpoint search (re : Regexp) (s : bytes) : option (Caps * bytes) :=
  match matchAt re s ∅ (fun s' caps => Some (caps, s')) with
  | Some m => Some m
  | None =>
    match s with
    | [] => None
    | _ :: s' => search re s'
    end
  end.

(** The loop of [allMatches], which delivers [fuel] matches at most.  A
    match of the pattern used here is never empty, so the next search
    starts where the last match ended. *)
Fixpoint allMatches (fuel : nat) (re : Regexp) (s : bytes) : list Caps :=
  match fuel with
  | O => []
  | S fuel' =>
    match search re s with
    | None => []
    | Some (caps, rest) => caps :: allMatches fuel' re rest
    end
  end.

(** [re.FindAllStringSubmatch(s, -1)]: a negative [n] stands for
    [len(s) + 1] matches.  [submatch v n] is [v[n]], the empty string for a
    group that did not take part in the match. *)
Definition FindAllStringSubmatch (re : Regexp) (s : bytes) : list Caps :=
  allMatches (S (length s)) re s.

Definition submatch (v : Caps) (n : nat) : bytes := default [] (v !! n).

End regexp.

Definition between (lo hi : Z) (c : ascii) : bool :=
  (lo <=? byteZ c) && (byteZ c <=? hi).

(** The character class [[0-9a-zA-Z,_=&\(\)]]. *)
Definition tagChar (c : ascii) : bool :=
  between 0x30 0x39 c || between 0x61 0x7A c || between 0x41 0x5A c
  || bool_decide (c ∈ B ",_=&()").

Definition dquote : ascii := ascii_of_nat 34.

Definition tagRegex : regexp.Regexp :=
  regexp.Cat
    (regexp.Capture 1 (regexp.Plus tagChar))
    (regexp.Quest
       (regexp.Capture 2
          (regexp.Cat (regexp.Lit ":")
          (regexp.Cat (regexp.Quest (regexp.Capture 3 (regexp.Lit " ")))
          (regexp.Cat (regexp.Lit dquote)
          (regexp.Cat (regexp.Capture 4 (regexp.Star tagChar))
                      (regexp.Lit dquote))))))).

(** ** [contains], [tagParser], [tagString] *)

Definition contains (list : list bytes) (key : bytes) : bool :=
  existsb (fun v => bool_decide (v = key)) list.

Definition tagParser (input : bytes) : gmap bytes bytes :=
  foldl (fun tags v => <[regexp.submatch v 1 := regexp.submatch v 4]> tags)
        ∅ (regexp.FindAllStringSubmatch tagRegex input).

(** The order in which a [range] over a map visits its entries is chosen
    by the Go runtime.  The choice is a parameter of the model: any function
    that lists the entries of the map in some order. *)
Definition RangeOrder : Type := gmap bytes bytes -> list (bytes * bytes).

Definition validOrder (rho : RangeOrder) : Prop :=
  forall m, rho m ≡ₚ map_to_list m.

(** The runtime chooses anew each time the [range] statement is executed,
    also for two maps with the same entries.  A call of [tagString] executes
    the statement once, and [main] calls [tagString] once at most in an
    iteration of its loop over the fields of a struct.  The choices made
    while one struct is emitted are therefore indexed by the loop index [i]
    of the field, and the choices of a run by the number [k] of structs
    emitted before, then by [i]. *)
Definition FieldOrders : Type := nat -> RangeOrder.
Definition RangeOracle : Type := nat -> FieldOrders.

Definition validOrders (rhos : FieldOrders) : Prop :=
  forall i, validOrder (rhos i).

Definition validOracle (rhos : RangeOracle) : Prop :=
  forall k, validOrders (rhos k).

(** The body of the loop of [tagString], run over the visited entries. *)
Definition tagStringLoop (entries : list (bytes * bytes)) : bytes :=
  foldl (fun output '(i, v) =>
           if bool_decide (v = [])
           then output ++ B " " ++ i
           else output ++ B " " ++ i ++ B ":" ++ [dquote] ++ v ++ [dquote])
        [] entries.

Definition tagString (rho : RangeOrder) (tags : gmap bytes bytes) : bytes :=
  strings.TrimPrefix (tagStringLoop (rho tags)) (B " ").

(** ** The syntax trees of package go/ast, as far as [main] inspects them *)

Module ast.

Inductive Expr : Type :=
  | Ident (Name : bytes)
  | StructType (Fields : list Field)
  | StarExpr (X : Expr)
  | SelectorExpr (X : Expr) (Sel : bytes)
  | ArrayType (Elt : Expr)
  | MapType (Key Value : Expr)
  | OtherExpr
with Field : Type :=
  | mkField (Names : list bytes) (Type_ : Expr) (Tag : option bytes).

Definition Names (f : Field) : list bytes := let 'mkField n _ _ := f in n.
Definition Type_ (f : Field) : Expr := let 'mkField _ t _ := f in t.
(** [Tag] is [nil] or a literal whose [Value] includes its quotes. *)
Definition Tag (f : Field) : option bytes := let 'mkField _ _ t := f in t.

Inductive Spec : Type :=
  | TypeSpec (Name : bytes) (Type_ : Expr)
  | ImportSpec
  | ValueSpec.

Inductive Token : Type := IMPORT | CONST | TYPE | VAR.

Inductive Decl : Type :=
  | GenDecl (Tok : Token) (Specs : list Spec)
  | FuncDecl
  | BadDecl.

Definition File : Type := list Decl.

#[global] Instance Token_eq_dec : EqDecision Token.
Proof. solve_decision. Defined.

End ast.

(** ** The generator *)

Definition nl : bytes := [ascii_of_nat 10].
Definition tab : bytes := [ascii_of_nat 9].
Definition backquote : bytes := [ascii_of_nat 96].

(** [strings.Join] *)
Fixpoint Join (elems : list bytes) (sep : bytes) : bytes :=
  match elems with
  | [] => []
  | [e] => e
  | e :: rest => e ++ sep ++ Join rest sep
  end.

(** Monadic left fold: a loop whose body can panic. *)
Fixpoint foldlM {A S : Type} (f : S -> A -> option S) (st : S) (l : list A)
    : option S :=
  match l with
  | [] => Some st
  | x :: l' => st' ← f st x; foldlM f st' l'
  end.

Section Generator.
Context `{UnicodeTables}.

(** Lines 130-137: the [json] entry of a field's tags. *)
Definition synthesize (fieldName : bytes) (tags : gmap bytes bytes)
    : option (gmap bytes bytes) :=
  match tags !! B "json" with
  | Some jsonTag =>
    if strings.HasPrefix jsonTag (B ",") then
      label ← CamelToSnake fieldName;
      Some (<[B "json" := label ++ jsonTag]> tags)
    else Some tags
  | None =>
    label ← CamelToSnake fieldName;
    Some (<[B "json" := label]> tags)
  end.

(** Lines 116-141: one iteration of the loop over the fields.  The state
    is the buffer and the names recorded in [fieldNames] so far; [rho] is
    the order that the range of [tagString] takes in this iteration.
    [field.Names[0]] panics on an embedded field, which has no name.  For
    an empty [Tag.Value] the upper bound [len - 1] is negative in Go and 0
    here: the slice [Value[1 : len-1]] panics either way. *)
Definition fieldStep (rho : RangeOrder) (st : bytes * list bytes)
    (field : ast.Field) : option (bytes * list bytes) :=
  let '(buf, fieldNames) := st in
  fieldName ← head (ast.Names field);
  let fieldNames := fieldNames ++ [fieldName] in
  match ast.Type_ field with
  | ast.Ident fieldType =>
    tagValue ← match ast.Tag field with
               | Some v => slice v 1 (length v - 1)
               | None => Some []
               end;
    tags ← synthesize fieldName (tagParser tagValue);
    Some (buf ++ fieldName ++ B " " ++ fieldType ++ B " " ++ backquote
              ++ tagString rho tags ++ backquote ++ nl,
          fieldNames)
  | _ => Some (buf, fieldNames)
  end.

(** Line 156: one assignment of the constructor. *)
Definition copyStep (buf : bytes) (fieldName : bytes) : bytes :=
  buf ++ tab ++ B "v." ++ fieldName ++ B " = m." ++ fieldName ++ nl.

(** The iteration for the field of index [i]: the names of the [i] fields
    before it are recorded in [fieldNames], and the range of [tagString]
    takes the order [rhos i]. *)
Definition fieldIter (rhos : FieldOrders) (st : bytes * list bytes)
    (field : ast.Field) : option (bytes * list bytes) :=
  let i := length st.2 in
  fieldStep (rhos i) st field.

(** Lines 113-161: the mirror type, [MarshalJSON] and the constructor of
    one struct type. *)
Definition emitStruct (rhos : FieldOrders) (buf : bytes) (name : bytes)
    (fields : list ast.Field) : option bytes :=
  let buf := buf ++ B "type " ++ name ++ B "JSON struct {" ++ nl in
  '(buf, fieldNames) ← foldlM (fieldIter rhos) (buf, []) fields;
  let buf := buf ++ B "}" ++ nl ++ nl in
  let buf := buf ++ B "func (m " ++ name ++ B ") MarshalJSON() ([]byte, error) {" ++ nl in
  let buf := buf ++ tab ++ B "j := New" ++ name ++ B "JSON(&m)" ++ nl in
  let buf := buf ++ tab ++ B "return json.Marshal(j)" ++ nl in
  let buf := buf ++ B "}" ++ nl ++ nl in
  let buf := buf ++ B "func New" ++ name ++ B "JSON(m *" ++ name ++ B ") *"
                 ++ name ++ B "JSON {" ++ nl in
  let buf := buf ++ tab ++ B "v := &" ++ name ++ B "JSON{}" ++ nl in
  let buf := foldl copyStep buf fieldNames in
  let buf := buf ++ B "return v" ++ nl in
  let buf := buf ++ B "}" ++ nl ++ nl in
  Some buf.

Variable rhos : RangeOracle.

(** Lines 100-162, 92-99 and 91: the loops over specs, declarations and
    files.  Their state is the buffer and the number [k] of structs emitted
    so far, which is not a variable of the program: it tells the executions
    of the [range] statement apart. *)
Definition specStep (types : list bytes) (st : bytes * nat) (spec : ast.Spec)
    : option (bytes * nat) :=
  let '(buf, k) := st in
  match spec with
  | ast.TypeSpec name ty =>
    if contains types name then
      match ty with
      | ast.StructType fields =>
        buf ← emitStruct (rhos k) buf name fields;
        Some (buf, S k)
      | _ => Some (buf, k)
      end
    else Some (buf, k)
  | _ => Some (buf, k)
  end.

Definition declStep (types : list bytes) (st : bytes * nat) (decl : ast.Decl)
    : option (bytes * nat) :=
  match decl with
  | ast.GenDecl tok specs =>
    if bool_decide (tok = ast.TYPE) then foldlM (specStep types) st specs
    else Some st
  | _ => Some st
  end.

Definition fileStep (types : list bytes) (st : bytes * nat) (file : ast.File)
    : option (bytes * nat) :=
  foldlM (declStep types) st file.

(** Lines 76-80: the header; [args] is [os.Args[1:]]. *)
Definition header (args : list bytes) (pkgName : bytes) : bytes :=
  B "// Code generated by " ++ [dquote] ++ B "json_snake_case "
    ++ Join args (B " ") ++ [dquote] ++ B "; DO NOT EDIT" ++ nl
    ++ nl
    ++ B "package " ++ pkgName
    ++ nl
    ++ B "import " ++ [dquote] ++ B "encoding/json" ++ [dquote] ++ nl.

(** The contents of [g.buf] when [main] reaches [g.format()]. *)
Definition generate (args : list bytes) (pkgName : bytes)
    (types : list bytes) (files : list ast.File) : option bytes :=
  fst <$> foldlM (fileStep types) (header args pkgName, 0%nat) files.

End Generator.

(** ** The driver: [format] and [main]

    The file system, the Go parser, gofmt and the flag package are outside
    the program; their results are the fields of a class.  A Go [error] is
    kept as its message. *)

Inductive result (A : Type) : Type :=
  | Ok (a : A)
  | Err (e : bytes).
Arguments Ok {A} a.
Arguments Err {A} e.

Class Environment : Type := {
  (** [os.Stat(name)] followed by [info.IsDir()] *)
  osStatIsDir : bytes -> result bool;
  (** [build.Default.ImportDir(dir, 0)]: [p.Name] and [p.GoFiles] *)
  buildImportDir : bytes -> result (bytes * list bytes);
  (** [parser.ParseFile(fs, name, nil, 0)] *)
  parserParseFile : bytes -> result ast.File;
  (** [format.Source(src)] *)
  formatSource : bytes -> result bytes;
  (** [ioutil.WriteFile(name, data, 0644)]: [None] is a [nil] error *)
  ioutilWriteFile : bytes -> bytes -> option bytes;
  (** [filepath.Join(dir, name)] *)
  filepathJoin : bytes -> bytes -> bytes
}.

(** How a run of [main] ends.  [stderr] lists the lines written through
    package log, each with the prefix set by [log.SetPrefix]. *)
Inductive Outcome : Type :=
  | ExitUsage
  | Fatal (stderr : list bytes)
  | Panic
  | Return (outputName src : bytes) (stderr : list bytes).

Definition logLine (msg : bytes) : bytes := B "json_snake: " ++ msg.

(** [strings.Split(s, sep)] for the one-byte separator [sep]; [cur] is the
    piece being read. *)
Fixpoint splitOn (sep : ascii) (cur s : bytes) : list bytes :=
  match s with
  | [] => [cur]
  | c :: s' =>
    if bool_decide (c = sep) then cur :: splitOn sep [] s'
    else splitOn sep (cur ++ [c]) s'
  end.

Definition Split (s : bytes) (sep : ascii) : list bytes := splitOn sep [] s.

Section Driver.
Context `{UnicodeTables} `{Environment}.
Variable rhos : RangeOracle.

(** [g.format()]: the bytes to write and the lines logged. *)
Definition format (buf : bytes) : bytes * list bytes :=
  match formatSource buf with
  | Err err =>
    (buf,
     [logLine (B "warning: internal error: invalid Go generated: " ++ err);
      logLine (B "warning: compile the package to analyze the error")])
  | Ok src => (src, [])
  end.

Definition prefixDirectory (directory name : bytes) : bytes :=
  if bool_decide (directory = B ".") then name
  else filepathJoin directory name.

(** Lines 83-89: parse every file, stopping at the first error. *)
Fixpoint parseFiles (names : list bytes) : result (list ast.File) :=
  match names with
  | [] => Ok []
  | name :: rest =>
    match parserParseFile name with
    | Err err => Err (B "parsing package: " ++ name ++ B ": " ++ err)
    | Ok parsedFile =>
      match parseFiles rest with
      | Err e => Err e
      | Ok files => Ok (parsedFile :: files)
      end
    end
  end.

(** Lines 166-178. *)
Definition writeOutput (output dir : bytes) (types : list bytes)
    (buf : bytes) : Outcome :=
  let '(src, stderr) := format buf in
  let outputName :=
    if bool_decide (output = []) then
      let baseName := default [] (head types) ++ B "_json.go" in
      filepathJoin dir (strings.ToLower baseName)
    else output in
  match ioutilWriteFile outputName src with
  | Some err => Fatal (stderr ++ [logLine (B "writing output: " ++ err)])
  | None => Return outputName src stderr
  end.

(** [main]; [osArgs] is [os.Args[1:]], [typeNames] and [output] are the
    values of the flags and [flagArgs] is [flag.Args()]. *)
Definition main (osArgs : list bytes) (typeNames output : bytes)
    (flagArgs : list bytes) : Outcome :=
  if bool_decide (length typeNames = 0%nat) then ExitUsage else
  let types := Split typeNames "," in
  let args := if bool_decide (length flagArgs = 0%nat) then [B "."] else flagArgs in
  match args with
  | [dir] =>
    match osStatIsDir dir with
    | Err err => Fatal [logLine err]
    | Ok false => Fatal [logLine (B "not supported files")]
    | Ok true =>
      match buildImportDir dir with
      | Err err =>
        Fatal [logLine (B "cannot process directory " ++ dir ++ B ": " ++ err)]
      | Ok (name, goFiles) =>
        match parseFiles (map (prefixDirectory dir) goFiles) with
        | Err msg => Fatal [logLine msg]
        | Ok files =>
          match generate rhos osArgs name types files with
          | None => Panic
          | Some buf => writeOutput output dir types buf
          end
        end
      end
    end
  | _ => Fatal [logLine (B "not supported files")]
  end.

End Driver.

(** ** Auxiliary notions of the statements *)


(** Text given line by line. *)
Definition lines (l : list bytes) : bytes := concat (map (fun ln => ln ++ nl) l).

(** ** Concrete inputs used by the examples below *)

(** Tables that know no upper-case letter beyond Latin-1 and leave
    non-ASCII strings alone: enough to run the program on ASCII input. *)
Definition asciiTables : UnicodeTables :=
  {| upperExcludingLatin := fun _ => false; mapToLower := fun s => s |}.

(** An environment in which gofmt rejects every buffer and every other
    call succeeds. *)
Definition gofmtFails : Environment :=
  {| osStatIsDir := fun _ => Ok true;
     buildImportDir := fun _ => Ok (B "main", []);
     parserParseFile := fun _ => Ok [];
     formatSource := fun _ => Err (B "1:1: expected declaration");
     ioutilWriteFile := fun _ _ => None;
     filepathJoin := fun dir name =>
       if bool_decide (dir = B ".") then name else dir ++ B "/" ++ name |}.

(** An environment whose package [main] is the one file [kind.go], parsed
    as [file]; every call succeeds and gofmt leaves the buffer as it is. *)
Definition oneFile (file : ast.File) : Environment :=
  {| osStatIsDir := fun _ => Ok true;
     buildImportDir := fun _ => Ok (B "main", [B "kind.go"]);
     parserParseFile := fun _ => Ok file;
     formatSource := fun src => Ok src;
     ioutilWriteFile := fun _ _ => None;
     filepathJoin := fun dir name =>
       if bool_decide (dir = B ".") then name else dir ++ B "/" ++ name |}.

(** A quoted string and a field tag literal. *)
Definition quoted (s : string) : bytes := [dquote] ++ B s ++ [dquote].
Definition tagLit (s : bytes) : option bytes := Some (backquote ++ s ++ backquote).

(** [type User struct { ID int; UserName string `json:",omitempty"` }] *)
Definition userFields : list ast.Field :=
  [ast.mkField [B "ID"] (ast.Ident (B "int")) None;
   ast.mkField [B "UserName"] (ast.Ident (B "string"))
     (tagLit (B "json:" ++ quoted ",omitempty"))].

Definition userFile : ast.File :=
  [ast.GenDecl ast.TYPE [ast.TypeSpec (B "User") (ast.StructType userFields)]].

(** [type T struct { A int; B []string }] *)
Definition mixedFields : list ast.Field :=
  [ast.mkField [B "A"] (ast.Ident (B "int")) None;
   ast.mkField [B "B"] (ast.ArrayType (ast.Ident (B "string"))) None].

(** [type Row struct { Name string `db:"name"` }] *)
Definition rowFile : ast.File :=
  [ast.GenDecl ast.TYPE
     [ast.TypeSpec (B "Row")
        (ast.StructType
           [ast.mkField [B "Name"] (ast.Ident (B "string"))
              (tagLit (B "db:" ++ quoted "name"))])]].

(** Two iteration orders: the order of [map_to_list], and its reverse. *)
Definition listOrder : RangeOrder := map_to_list.
Definition reverseOrder : RangeOrder := fun m => reverse (map_to_list m).

(** The runs in which every range takes the order [rho], and the runs in
    which the ranges for the fields of even index take [listOrder] and the
    others [reverseOrder]. *)
Definition constOrders (rho : RangeOrder) : FieldOrders := fun _ => rho.
Definition constOracle (rho : RangeOrder) : RangeOracle := fun _ _ => rho.
Definition alternating : RangeOracle :=
  fun _ i => if Nat.even i then listOrder else reverseOrder.

(** [type Twin struct { A int `json:"x" db:"y"`; B int `json:"x" db:"y"` }]:
    the tags of the two fields are parsed into equal maps. *)
Definition twinFile : ast.File :=
  [ast.GenDecl ast.TYPE
     [ast.TypeSpec (B "Twin")
        (ast.StructType
           [ast.mkField [B "A"] (ast.Ident (B "int"))
              (tagLit (B "json:" ++ quoted "x" ++ B " db:" ++ quoted "y"));
            ast.mkField [B "B"] (ast.Ident (B "int"))
              (tagLit (B "json:" ++ quoted "x" ++ B " db:" ++ quoted "y"))])]].


(** ** Tags as text

    [render] is what one iteration of the loop of [tagString] appends after
    the separating space; [wfTag k v] says that the entry [k], [v] is within
    the grammar of [tagRegex]: a non-empty key, and only characters of the
    class. *)
Definition render (e : bytes * bytes) : bytes :=
  let '(i, v) := e in
  if bool_decide (v = []) then i
  else i ++ B ":" ++ [dquote] ++ v ++ [dquote].

Definition wfTag (k v : bytes) : Prop :=
  k <> [] /\ forallb tagChar k = true /\ forallb tagChar v = true.

(** The continuation that ends a match. *)
Definition matched (s' : bytes) (caps : regexp.Caps) : option (regexp.Caps * bytes) :=
  Some (caps, s').

(** The key and the value that [tagParser] reads off a match. *)
Definition entryOf (v : regexp.Caps) : bytes * bytes :=
  (regexp.submatch v 1, regexp.submatch v 4).

(** [a:"1" b:"2"], as the entries of a tag. *)
Definition abEntries : list (bytes * bytes) := [(B "a", B "1"); (B "b", B "2")].

(** The input after a serialized entry: nothing, or a separating space. *)
Definition stops (tail : bytes) : Prop :=
  tail = [] \/ exists t, tail = " "%char :: t.

(** What the loop of [tagString] appends for the entries [l]. *)
Definition text (l : list (bytes * bytes)) : bytes :=
  concat (map (fun e => " "%char :: render e) l).

(** ** The shape of the initialisms

    Every initialism is made of ASCII bytes and has between two and five of
    them; its second byte, and every byte but the first and the last, is an
    upper-case letter (the last may be a digit, as in UTF8). *)
Definition initialismShape (ini : bytes) : bool :=
  forallb (fun c => byteZ c <? 0x80) ini
  && ((2 <=? length ini)%nat && (length ini <=? 5)%nat)
  && forallb (between 0x41 0x5A)
       (take (Nat.max 1 (length ini - 2)) (drop 1 ini)).

(** The least number of bytes a match of [r] takes. *)
Fixpoint minLen (r : regexp.Regexp) : nat :=
  match r with
  | regexp.Lit _ | regexp.Class _ | regexp.Plus _ => 1
  | regexp.Cat r1 r2 => minLen r1 + minLen r2
  | regexp.Quest _ | regexp.Star _ => 0
  | regexp.Capture _ r' => minLen r'
  end.

(** ** The emitted text, piece by piece

    [tagValueOf] is the text between the quotes of a field's tag literal
    (lines 125-128); [fieldPanics] tells the fields on which an iteration
    of the field loop panics: an embedded field, whose [Names] is empty, or
    a field of an identifier type whose tag literal is shorter than its two
    quotes. *)
Definition tagValueOf (field : ast.Field) : option bytes :=
  match ast.Tag field with
  | Some v => slice v 1 (length v - 1)
  | None => Some []
  end.

Definition identTyped (field : ast.Field) : bool :=
  match ast.Type_ field with
  | ast.Ident _ => true
  | _ => false
  end.

Definition fieldPanics (field : ast.Field) : bool :=
  match ast.Names field with
  | [] => true
  | _ :: _ =>
    identTyped field
    && match ast.Tag field with
       | Some v => (length v <? 2)%nat
       | None => false
       end
  end.

(** [line] is the line of the mirror type for [field] when the range of
    [tagString] takes the order [rho]: its first name, its type, and its
    synthesized tags between backquotes. *)
Definition mirrorLine `{UnicodeTables} (rho : RangeOrder) (field : ast.Field)
    (line : bytes) : Prop :=
  exists fieldName fieldType tagValue tags,
    head (ast.Names field) = Some fieldName
    /\ ast.Type_ field = ast.Ident fieldType
    /\ tagValueOf field = Some tagValue
    /\ synthesize fieldName (tagParser tagValue) = Some tags
    /\ line = fieldName ++ B " " ++ fieldType ++ B " " ++ backquote
                ++ tagString rho tags ++ backquote ++ nl.

(** The text printed for one struct, given the lines of the mirror type
    and the names assigned by the constructor. *)
Definition structText (name : bytes) (mirror names : list bytes) : bytes :=
  lines [B "type " ++ name ++ B "JSON struct {"]
  ++ concat mirror
  ++ lines [B "}";
            [];
            B "func (m " ++ name ++ B ") MarshalJSON() ([]byte, error) {";
            tab ++ B "j := New" ++ name ++ B "JSON(&m)";
            tab ++ B "return json.Marshal(j)";
            B "}";
            [];
            B "func New" ++ name ++ B "JSON(m *" ++ name ++ B ") *" ++ name
              ++ B "JSON {";
            tab ++ B "v := &" ++ name ++ B "JSON{}"]
  ++ concat ((fun n => tab ++ B "v." ++ n ++ B " = m." ++ n ++ nl) <$> names)
  ++ lines [B "return v"; B "}"; []].

(** The struct types that [main] emits: the type specs of the [type]
    declarations whose name is requested and whose type is a struct, in the
    order of the files, declarations and specs. *)
Definition selectedSpec (types : list bytes) (spec : ast.Spec)
    : list (bytes * list ast.Field) :=
  match spec with
  | ast.TypeSpec name (ast.StructType fields) =>
    if contains types name then [(name, fields)] else []
  | _ => []
  end.

Definition selectedDecl (types : list bytes) (decl : ast.Decl)
    : list (bytes * list ast.Field) :=
  match decl with
  | ast.GenDecl ast.TYPE specs => concat (selectedSpec types <$> specs)
  | _ => []
  end.

Definition selected (types : list bytes) (files : list ast.File)
    : list (bytes * list ast.Field) :=
  concat ((fun file => concat (selectedDecl types <$> file)) <$> files).

(** One step of the loop over the selected structs: the [k]-th struct of
    the run is emitted with the orders [rhos k], and counted. *)
Definition emitSelected `{UnicodeTables} (rhos : RangeOracle)
    (st : bytes * nat) (sel : bytes * list ast.Field) : option (bytes * nat) :=
  buf ← emitStruct (rhos st.2) st.1 sel.1 sel.2;
  Some (buf, S st.2).

(** [block] is the text printed for the selected struct [sel]: its mirror
    type has one line for every field whose type is an identifier, each
    with its tags in an order of its own, and its constructor one
    assignment for every field, both in the order of the fields. *)
Definition structBlock `{UnicodeTables} (sel : bytes * list ast.Field)
    (block : bytes) : Prop :=
  exists mirror names,
    block = structText sel.1 mirror names
    /\ Forall2 (fun f n => head (ast.Names f) = Some n) sel.2 names
    /\ Forall2 (fun f line =>
                  exists rho, validOrder rho /\ mirrorLine rho f line)
         (filter (fun f => identTyped f = true) sel.2) mirror.

(** The field has no tag key other than [json]. *)
Definition jsonOnly (field : ast.Field) : Prop :=
  forall tagValue k,
    tagValueOf field = Some tagValue -> k <> B "json" ->
    tagParser tagValue !! k = None.

(** An ASCII byte that is not an upper-case letter. *)
Definition lowASCII (c : ascii) : bool :=
  (byteZ c <? utf8.RuneSelf) && negb (between 0x41 0x5A c).

(** [type Buffer struct { Mutex; Data string }]: the field [Mutex] is
    embedded. *)
Definition embeddedFile : ast.File :=
  [ast.GenDecl ast.TYPE
     [ast.TypeSpec (B "Buffer")
        (ast.StructType
           [ast.mkField [] (ast.Ident (B "Mutex")) None;
            ast.mkField [B "Data"] (ast.Ident (B "string")) None])]].

(** [json:"a" db json:"b"], as the entries of a tag: the key [json] is
    repeated. *)
Definition repeatedEntries : list (bytes * bytes) :=
  [(B "json", B "a"); (B "db", []); (B "json", B "b")].

(** The value of the [json] key that lines 130-137 leave in the tags of a
    field, given the [label] made from its name and the value [jsonTag]
    written in the source, if any. *)
Definition jsonValue (label : bytes) (jsonTag : option bytes) : bytes :=
  match jsonTag with
  | Some v => if strings.HasPrefix v (B ",") then label ++ v else v
  | None => label
  end.

(** * Properties *)

(** ** Case conversion on the examples of the specification *)

(** C6: [CamelToSnake] maps UserID to user_id, ID to id and APIKeyID to
    api_key_id, whatever the Unicode tables are. *)
Theorem CamelToSnake_examples `{UnicodeTables} :
  CamelToSnake (B "UserID") = Some (B "user_id")
  /\ CamelToSnake (B "ID") = Some (B "id")
  /\ CamelToSnake (B "APIKeyID") = Some (B "api_key_id").
Proof. repeat split; vm_compute; reflexivity. Qed.

(** C3, as stated, fails: on HTTPServer the program answers https_erver,
    which is not http_server. *)
Lemma CamelToSnake_HTTPServer_not_http_server :
  exists out : bytes,
    (forall U : UnicodeTables, @CamelToSnake U (B "HTTPServer") = Some out)
    /\ out <> B "http_server".
Proof.
  exists (B "https_erver"). split.
  - intros U. vm_compute. reflexivity.
  - vm_compute. discriminate.
Qed.

(** C3, amended: HTTP and HTTPS are both initialisms that begin HTTPServer,
    [startsWithInitialism] answers the longer one, and the identifier is
    converted to https_erver. *)
Theorem CamelToSnake_HTTPServer `{UnicodeTables} :
  isInitialism (B "HTTP") = true
  /\ isInitialism (B "HTTPS") = true
  /\ startsWithInitialism (B "HTTPServer") = B "HTTPS"
  /\ CamelToSnake (B "HTTPServer") = Some (B "https_erver").
Proof. repeat split; vm_compute; reflexivity. Qed.

(** ** Identifiers without an inner upper-case letter *)

Lemma scan_without_upper `{UnicodeTables} (s : bytes) (rs : list Z) :
  (forall i r, (0 < i)%nat -> rs !! i = Some r -> unicode.IsUpper r = false) ->
  forall fuel i lastPos words,
    (length rs - i < fuel)%nat ->
    scan fuel s rs i lastPos words = Some (lastPos, words).
Proof.
  intros Hlow fuel. induction fuel as [|fuel IH]; intros i lastPos words Hfuel.
  - lia.
  - simpl. destruct (Nat.ltb_spec i (length rs)) as [Hi|Hi]; [|reflexivity].
    destruct (Nat.ltb_spec 0 i) as [Hpos|Hpos]; simpl.
    + destruct (lookup_lt_is_Some_2 rs i Hi) as [r Hr].
      rewrite nth_lookup, Hr. simpl. rewrite (Hlow i r Hpos Hr).
      apply IH. lia.
    + apply IH. lia.
Qed.

Lemma sliceFrom_0 (s : bytes) : sliceFrom s 0 = Some s.
Proof.
  unfold sliceFrom, slice. simpl.
  destruct (Nat.leb_spec (length s) (length s)); [|lia].
  rewrite Nat.sub_0_r, drop_0, firstn_all. reflexivity.
Qed.

(** C10: when no rune after the first is upper case, [CamelToSnake] returns
    the lowercased input as it is: one word, nothing inserted. *)
Theorem CamelToSnake_single_word `{UnicodeTables} (s : bytes) :
  (forall i r, (0 < i)%nat -> utf8.runes s !! i = Some r ->
               unicode.IsUpper r = false) ->
  CamelToSnake s = Some (strings.ToLower s).
Proof.
  intros Hlow. unfold CamelToSnake, camelWords.
  rewrite (scan_without_upper s _ Hlow) by lia. simpl.
  rewrite sliceFrom_0. simpl.
  destruct s as [|c s]; reflexivity.
Qed.

Lemma CamelToSnake_single_word_witness :
  @CamelToSnake asciiTables (B "Username2") = Some (B "username2").
Proof.
  change (@CamelToSnake asciiTables (B "Username2")
          = Some (@strings.ToLower asciiTables (B "Username2"))).
  apply (@CamelToSnake_single_word asciiTables (B "Username2")).
  intros i r Hi Hr.
  do 9 (destruct i as [|i];
        [first [lia | vm_compute in Hr; injection Hr as <-; reflexivity]|]).
  vm_compute in Hr. discriminate.
Defined.

(** ** The [json] entry of a field's tags *)

(** C4: with [label] the converted field name, [synthesize] inserts
    [label] under [json] when the tags have no such entry, puts [label]
    before a value that begins with a comma, and leaves the tags as they
    are for any other non-empty value. *)
Theorem synthesize_policy `{UnicodeTables}
    (fieldName label : bytes) (tags : gmap bytes bytes) :
  CamelToSnake fieldName = Some label ->
  (tags !! B "json" = None ->
     synthesize fieldName tags = Some (<[B "json" := label]> tags))
  /\ (forall v, tags !! B "json" = Some v ->
        strings.HasPrefix v (B ",") = true ->
        synthesize fieldName tags = Some (<[B "json" := label ++ v]> tags))
  /\ (forall v, tags !! B "json" = Some v -> v <> [] ->
        strings.HasPrefix v (B ",") = false ->
        synthesize fieldName tags = Some tags).
Proof.
  intros Hlabel. unfold synthesize. repeat split.
  - intros ->. rewrite Hlabel. reflexivity.
  - intros v -> ->. rewrite Hlabel. reflexivity.
  - intros v -> _ ->. reflexivity.
Qed.

Lemma synthesize_policy_witness :
  @synthesize asciiTables (B "UserName") {[ B "db" := B "name" ]}
  = Some (<[B "json" := B "user_name"]> {[ B "db" := B "name" ]})
  /\ @synthesize asciiTables (B "UserName") {[ B "json" := B ",omitempty" ]}
     = Some (<[B "json" := B "user_name,omitempty"]> {[ B "json" := B ",omitempty" ]})
  /\ @synthesize asciiTables (B "UserName") {[ B "json" := B "custom_field" ]}
     = Some {[ B "json" := B "custom_field" ]}.
Proof.
  assert (@CamelToSnake asciiTables (B "UserName") = Some (B "user_name"))
    as Hlabel by (vm_compute; reflexivity).
  split; [|split].
  - apply (proj1 (@synthesize_policy asciiTables (B "UserName") (B "user_name")
             {[ B "db" := B "name" ]} Hlabel)).
    vm_compute. reflexivity.
  - apply (proj1 (proj2 (@synthesize_policy asciiTables (B "UserName")
             (B "user_name") {[ B "json" := B ",omitempty" ]} Hlabel))
             (B ",omitempty")); vm_compute; reflexivity.
  - apply (proj2 (proj2 (@synthesize_policy asciiTables (B "UserName")
             (B "user_name") {[ B "json" := B "custom_field" ]} Hlabel))
             (B "custom_field")); [vm_compute; reflexivity|discriminate|reflexivity].
Defined.

(** X5: [synthesize] touches the [json] entry only: every other key keeps its
    value, or stays absent. *)
Theorem synthesize_other_keys `{UnicodeTables} (fieldName : bytes)
    (tags tags' : gmap bytes bytes) (k : bytes) :
  synthesize fieldName tags = Some tags' -> k <> B "json" ->
  tags' !! k = tags !! k.
Proof.
  unfold synthesize. intros Hs Hk.
  destruct (tags !! B "json") as [jsonTag|];
    [destruct (strings.HasPrefix jsonTag (B ","))|];
    try (destruct (CamelToSnake fieldName) as [label|]; [|discriminate]);
    simpl in Hs; injection Hs as <-; try reflexivity;
    apply lookup_insert_ne, not_eq_sym, Hk.
Qed.

Lemma HasPrefix_app (label v : bytes) :
  label <> [] -> strings.HasPrefix (label ++ v) (B ",") = strings.HasPrefix label (B ",").
Proof. destruct label; [congruence|reflexivity]. Qed.

(** X6: once synthesized, the tags are stable: when the converted name does
    not begin with a comma, a second [synthesize] changes nothing. *)
Theorem synthesize_again `{UnicodeTables} (fieldName label : bytes)
    (tags tags' : gmap bytes bytes) :
  CamelToSnake fieldName = Some label ->
  strings.HasPrefix label (B ",") = false ->
  synthesize fieldName tags = Some tags' ->
  synthesize fieldName tags' = Some tags'.
Proof.
  intros Hlabel Hcomma. unfold synthesize. rewrite Hlabel. cbn [mbind option_bind].
  destruct (tags !! B "json") as [jsonTag|] eqn:Hjson.
  - destruct (strings.HasPrefix jsonTag (B ",")) eqn:Hpre.
    + intros [= <-]. rewrite lookup_insert_eq.
      destruct label as [|c label].
      * cbn [app]. rewrite Hpre. cbn [app]. rewrite insert_insert_eq. reflexivity.
      * rewrite HasPrefix_app, Hcomma by discriminate. reflexivity.
    + intros [= <-]. rewrite Hjson, Hpre. reflexivity.
  - intros [= <-]. rewrite lookup_insert_eq, Hcomma. reflexivity.
Qed.

Lemma synthesize_other_keys_witness :
  (<[B "json" := B "user_name"]> ({[ B "db" := B "name" ]} : gmap bytes bytes))
    !! B "db"
  = ({[ B "db" := B "name" ]} : gmap bytes bytes) !! B "db".
Proof.
  apply (@synthesize_other_keys asciiTables (B "UserName")
           {[ B "db" := B "name" ]}
           (<[B "json" := B "user_name"]> {[ B "db" := B "name" ]}) (B "db"));
    [vm_compute; reflexivity|discriminate].
Defined.

Lemma synthesize_again_witness :
  @synthesize asciiTables (B "UserName")
     (<[B "json" := B "user_name"]> {[ B "db" := B "name" ]})
  = Some (<[B "json" := B "user_name"]> {[ B "db" := B "name" ]}).
Proof.
  apply (@synthesize_again asciiTables (B "UserName") (B "user_name")
           {[ B "db" := B "name" ]});
    vm_compute; reflexivity.
Defined.

(** ** Formatting failures *)

(** C8: when [format.Source] rejects the buffer, [format] hands back the
    buffer itself and logs two warnings; [main] goes on to write that
    buffer, and returns normally when the write succeeds. *)
Theorem format_failure_is_not_fatal `{UnicodeTables} `{Environment}
    (buf err output dir : bytes) (types : list bytes) :
  formatSource buf = Err err ->
  let warnings :=
    [logLine (B "warning: internal error: invalid Go generated: " ++ err);
     logLine (B "warning: compile the package to analyze the error")] in
  format buf = (buf, warnings)
  /\ exists outputName,
       writeOutput output dir types buf =
       match ioutilWriteFile outputName buf with
       | None => Return outputName buf warnings
       | Some e => Fatal (warnings ++ [logLine (B "writing output: " ++ e)])
       end.
Proof.
  intros Herr warnings. unfold writeOutput, format. rewrite Herr.
  split; [reflexivity|]. eexists. reflexivity.
Qed.

Lemma format_failure_is_not_fatal_witness :
  @format gofmtFails (B "package main")
  = (B "package main",
     [B "json_snake: warning: internal error: invalid Go generated: 1:1: expected declaration";
      B "json_snake: warning: compile the package to analyze the error"])
  /\ @main asciiTables gofmtFails (constOracle listOrder) [B "-type=User"]
       (B "User") [] []
     = Return (B "user_json.go")
         (B "// Code generated by " ++ quoted "json_snake_case -type=User"
            ++ B "; DO NOT EDIT" ++ nl ++ nl ++ B "package main" ++ nl
            ++ B "import " ++ quoted "encoding/json" ++ nl)
         [B "json_snake: warning: internal error: invalid Go generated: 1:1: expected declaration";
          B "json_snake: warning: compile the package to analyze the error"].
Proof.
  split.
  - apply (@format_failure_is_not_fatal asciiTables gofmtFails
             (B "package main") (B "1:1: expected declaration") [] [] []).
    reflexivity.
  - vm_compute. reflexivity.
Defined.

(** ** Iteration order of the tag map *)

Lemma listOrder_valid : validOrder listOrder.
Proof. intros m. reflexivity. Qed.

Lemma reverseOrder_valid : validOrder reverseOrder.
Proof. intros m. unfold reverseOrder. apply reverse_Permutation. Qed.

(** A map with one entry at most leaves the runtime no choice. *)
Lemma validOrder_small (rho : RangeOrder) (m : gmap bytes bytes) :
  validOrder rho -> (length (map_to_list m) <= 1)%nat -> rho m = map_to_list m.
Proof.
  intros Hrho Hlen. specialize (Hrho m).
  destruct (map_to_list m) as [|e [|e' l]]; [| |simpl in Hlen; lia].
  - apply Permutation_nil_r, Hrho.
  - apply Permutation_singleton_r, Hrho.
Qed.

(** Evaluation of a goal in which the orders [rhos] are only applied to
    such maps. *)
Ltac eval_small_orders rhos Hrhos :=
  vm_compute;
  repeat match goal with
         | |- context [rhos ?i ?m] =>
           let tags := fresh "tags" in
           set (tags := m);
           rewrite (validOrder_small (rhos i) tags (Hrhos i))
             by (vm_compute; lia);
           subst tags
         end;
  vm_compute.

(** C1, on a failing input: for the struct [Row], whose field [Name] is
    tagged [db], two admissible iteration orders of the tag map give two
    different field lines, and so two different generated buffers. *)
Theorem generate_depends_on_range_order `{UnicodeTables} :
  validOrder listOrder /\ validOrder reverseOrder
  /\ tagString listOrder (<[B "json" := B "name"]> {[ B "db" := B "name" ]})
     = B "json:" ++ quoted "name" ++ B " db:" ++ quoted "name"
  /\ tagString reverseOrder (<[B "json" := B "name"]> {[ B "db" := B "name" ]})
     = B "db:" ++ quoted "name" ++ B " json:" ++ quoted "name"
  /\ exists out1 out2,
       generate (constOracle listOrder) [B "-type=Row"] (B "main") [B "Row"]
         [rowFile] = Some out1
       /\ generate (constOracle reverseOrder) [B "-type=Row"] (B "main")
            [B "Row"] [rowFile] = Some out2
       /\ out1 <> out2.
Proof.
  split; [apply listOrder_valid|]. split; [apply reverseOrder_valid|].
  split; [vm_compute; reflexivity|]. split; [vm_compute; reflexivity|].
  eexists _, _. split; [vm_compute; reflexivity|].
  split; [vm_compute; reflexivity|]. discriminate.
Qed.

(** ** Fields left out of the mirror type *)

(** C2, on a failing input: for [type T struct { A int; B []string }] the
    mirror type has the field [A] only, and the constructor still assigns
    [v.B], whatever order each range takes. *)
Theorem constructor_copies_omitted_field `{UnicodeTables} (rhos : FieldOrders) :
  validOrders rhos ->
  emitStruct rhos [] (B "T") mixedFields
  = Some (lines
      [B "type TJSON struct {";
       B "A int `json:" ++ quoted "a" ++ B "`";
       B "}";
       [];
       B "func (m T) MarshalJSON() ([]byte, error) {";
       tab ++ B "j := NewTJSON(&m)";
       tab ++ B "return json.Marshal(j)";
       B "}";
       [];
       B "func NewTJSON(m *T) *TJSON {";
       tab ++ B "v := &TJSON{}";
       tab ++ B "v.A = m.A";
       tab ++ B "v.B = m.B";
       B "return v";
       B "}";
       []]).
Proof.
  intros Hrhos. eval_small_orders rhos Hrhos. reflexivity.
Qed.

Lemma constructor_copies_omitted_field_witness :
  exists out,
    @emitStruct asciiTables (constOrders listOrder) [] (B "T") mixedFields
    = Some out.
Proof.
  eexists.
  apply (@constructor_copies_omitted_field asciiTables (constOrders listOrder)).
  intros i. apply listOrder_valid.
Defined.

(** ** Requested names without a struct declaration *)

Lemma foldlM_ext {A S : Type} (f g : S -> A -> option S) (l : list A) :
  (forall st x, x ∈ l -> f st x = g st x) ->
  forall st, foldlM f st l = foldlM g st l.
Proof.
  induction l as [|x l IH]; intros Hfg st; simpl; [reflexivity|].
  rewrite (Hfg st x) by left.
  destruct (g st x) as [st1|]; simpl; [|reflexivity].
  apply IH. intros st2 y Hy. apply Hfg. right. exact Hy.
Qed.




(** ** Parsing what [tagString] wrote *)

Lemma matchStar_run {R : Type} (p : ascii -> bool) (w tail : bytes)
    (caps : regexp.Caps) (K : bytes -> regexp.Caps -> option R) (x : R) :
  forallb p w = true ->
  (forall c, head tail = Some c -> p c = false) ->
  K tail caps = Some x ->
  regexp.matchStar p (w ++ tail) caps K = Some x.
Proof.
  intros Hw Htail HK. induction w as [|c w IH]; simpl.
  - destruct tail as [|c tail]; simpl; [exact HK|].
    rewrite (Htail c eq_refl). exact HK.
  - simpl in Hw. apply andb_true_iff in Hw as [Hc Hw].
    rewrite Hc, (IH Hw). reflexivity.
Qed.

Lemma take_matched (w t : bytes) :
  take (length (w ++ t) - length t) (w ++ t) = w.
Proof.
  rewrite length_app, Nat.add_sub. apply take_app_length.
Qed.

Lemma matchAt_bare (k tail : bytes) :
  k <> [] -> forallb tagChar k = true -> stops tail ->
  regexp.matchAt tagRegex (k ++ tail) ∅ matched = Some (<[1%nat := k]> ∅, tail).
Proof.
  intros Hk Hcls Htail. destruct k as [|c0 k]; [congruence|].
  simpl in Hcls. apply andb_true_iff in Hcls as [Hc0 Hcls].
  unfold tagRegex. cbn [regexp.matchAt]. 
  change ((c0 :: k) ++ tail) with (c0 :: (k ++ tail)). cbv iota beta. rewrite Hc0.
  apply matchStar_run; [exact Hcls| |].
  - intros c Hc. destruct Htail as [->|[t ->]]; [discriminate|].
    injection Hc as <-. reflexivity.
  - cbv beta.
    change (c0 :: k ++ tail) with ((c0 :: k) ++ tail). rewrite take_matched.
    destruct Htail as [->|[t ->]]; cbn [regexp.matchAt]; [reflexivity|].
    rewrite bool_decide_eq_false_2 by discriminate. reflexivity.
Qed.

Lemma matchAt_valued (k v tail : bytes) :
  k <> [] -> forallb tagChar k = true -> forallb tagChar v = true ->
  regexp.matchAt tagRegex (k ++ ":"%char :: dquote :: v ++ dquote :: tail) ∅ matched
  = Some (<[2%nat := ":"%char :: dquote :: v ++ [dquote]]>
            (<[4%nat := v]> (<[1%nat := k]> ∅)), tail).
Proof.
  intros Hk Hcls Hv. destruct k as [|c0 k]; [congruence|].
  simpl in Hcls. apply andb_true_iff in Hcls as [Hc0 Hcls].
  set (rest := ":"%char :: dquote :: v ++ dquote :: tail).
  unfold tagRegex. cbn [regexp.matchAt].
  change ((c0 :: k) ++ rest) with (c0 :: (k ++ rest)). cbv iota beta. rewrite Hc0.
  apply matchStar_run; [exact Hcls|intros c [= <-]; reflexivity|].
  cbv beta.
  change (c0 :: k ++ rest) with ((c0 :: k) ++ rest). rewrite take_matched.
  unfold rest. cbn [regexp.matchAt].
  rewrite (bool_decide_eq_true_2 (":"%char = ":"%char)) by reflexivity.
  rewrite (bool_decide_eq_false_2 (dquote = " "%char)) by discriminate.
  rewrite (bool_decide_eq_true_2 (dquote = dquote)) by reflexivity.
  erewrite matchStar_run; [reflexivity|exact Hv|intros c [= <-]; reflexivity|].
  cbv beta. rewrite (bool_decide_eq_true_2 (dquote = dquote)) by reflexivity.
  unfold matched. rewrite take_matched.
  f_equal. f_equal. f_equal.
  replace (":"%char :: dquote :: v ++ dquote :: tail)
    with ((":"%char :: dquote :: v ++ [dquote]) ++ tail)
    by (simpl; rewrite <- app_assoc; reflexivity).
  apply take_matched.
Qed.

Lemma stops_text l : stops (text l).
Proof. destruct l; [left|right; eexists]; reflexivity. Qed.

Lemma tagStringLoop_text (l : list (bytes * bytes)) :
  tagStringLoop l = text l.
Proof.
  unfold tagStringLoop.
  enough (forall acc, foldl (fun output '(i, v) =>
           if bool_decide (v = [])
           then output ++ B " " ++ i
           else output ++ B " " ++ i ++ B ":" ++ [dquote] ++ v ++ [dquote])
        acc l = acc ++ text l) as Hacc by apply (Hacc []).
  induction l as [|[i v] l IH]; intros acc; simpl.
  - rewrite app_nil_r. reflexivity.
  - rewrite IH. unfold text at 2. simpl. fold (text l).
    case_bool_decide; rewrite <- app_assoc; reflexivity.
Qed.

Lemma search_unfold (re : regexp.Regexp) (s : bytes) :
  regexp.search re s =
  match regexp.matchAt re s ∅ matched with
  | Some m => Some m
  | None => match s with [] => None | _ :: s' => regexp.search re s' end
  end.
Proof. destruct s; reflexivity. Qed.

(** *** The searches of [allMatches] are enough *)

Lemma matchStar_consumes {R : Type} (p : ascii -> bool) (s : bytes)
    (caps : regexp.Caps) (K : bytes -> regexp.Caps -> option R) (x : R) :
  regexp.matchStar p s caps K = Some x ->
  exists s' caps', K s' caps' = Some x /\ (length s' <= length s)%nat.
Proof.
  induction s as [|c s IH]; simpl.
  - intros HK. eauto.
  - destruct (p c); [|intros HK; eauto].
    destruct (regexp.matchStar p s caps K) as [y|] eqn:Hm.
    + intros [= ->]. destruct (IH eq_refl) as (s' & caps' & HK & Hlen).
      exists s', caps'. split; [exact HK|lia].
    + intros HK. eauto.
Qed.

Lemma matchAt_consumes {R : Type} (r : regexp.Regexp) :
  forall (s : bytes) (caps : regexp.Caps)
         (K : bytes -> regexp.Caps -> option R) (x : R),
    regexp.matchAt r s caps K = Some x ->
    exists s' caps', K s' caps' = Some x
                     /\ (length s' + minLen r <= length s)%nat.
Proof.
  induction r as [c|p|r1 IH1 r2 IH2|r IH|p|p|n r IH]; intros s caps K x; simpl.
  - destruct s as [|c' s]; [discriminate|]. case_bool_decide; [|discriminate].
    intros HK. exists s, caps. split; [exact HK|simpl; lia].
  - destruct s as [|c' s]; [discriminate|]. destruct (p c'); [|discriminate].
    intros HK. exists s, caps. split; [exact HK|simpl; lia].
  - intros Hm. apply IH1 in Hm as (s1 & caps1 & Hm & Hlen1).
    apply IH2 in Hm as (s2 & caps2 & HK & Hlen2).
    exists s2, caps2. split; [exact HK|lia].
  - destruct (regexp.matchAt r s caps K) as [y|] eqn:Hm.
    + intros [= ->]. apply IH in Hm as (s' & caps' & HK & Hlen).
      exists s', caps'. split; [exact HK|lia].
    + intros HK. exists s, caps. split; [exact HK|lia].
  - intros Hm. apply matchStar_consumes in Hm as (s' & caps' & HK & Hlen).
    exists s', caps'. split; [exact HK|lia].
  - destruct s as [|c' s]; [discriminate|]. destruct (p c'); [|discriminate].
    intros Hm. apply matchStar_consumes in Hm as (s' & caps' & HK & Hlen).
    exists s', caps'. split; [exact HK|simpl; lia].
  - intros Hm. apply IH in Hm as (s' & caps' & HK & Hlen).
    eexists s', _. split; [exact HK|exact Hlen].
Qed.

Lemma search_consumes (re : regexp.Regexp) (s : bytes)
    (caps : regexp.Caps) (rest : bytes) :
  regexp.search re s = Some (caps, rest) ->
  (length rest + minLen re <= length s)%nat.
Proof.
  induction s as [|c s IH]; rewrite search_unfold.
  - destruct (regexp.matchAt re [] ∅ matched) as [m|] eqn:Hm; [|discriminate].
    intros [= ->]. apply matchAt_consumes in Hm as (s' & caps' & [= _ <-] & Hlen).
    exact Hlen.
  - destruct (regexp.matchAt re (c :: s) ∅ matched) as [m|] eqn:Hm.
    + intros [= ->]. apply matchAt_consumes in Hm as (s' & caps' & [= _ <-] & Hlen).
      exact Hlen.
    + intros Hs. apply IH in Hs. simpl. lia.
Qed.

(** When every match takes at least one byte, the bound [len(s) + 1] is
    never reached: allowing more matches gives the same list. *)
Lemma allMatches_fuel (re : regexp.Regexp) (s : bytes) (fuel : nat) :
  (1 <= minLen re)%nat -> (length s < fuel)%nat ->
  regexp.allMatches fuel re s = regexp.FindAllStringSubmatch re s.
Proof.
  intros Hre. unfold regexp.FindAllStringSubmatch.
  enough (forall fuel1 fuel2 s, (length s < fuel1)%nat -> (length s < fuel2)%nat ->
            regexp.allMatches fuel1 re s = regexp.allMatches fuel2 re s) as Hany
    by (intros; apply Hany; lia).
  clear s fuel. induction fuel1 as [|fuel1 IH]; intros fuel2 s H1 H2; [lia|].
  destruct fuel2 as [|fuel2]; [lia|]. simpl.
  destruct (regexp.search re s) as [[caps rest]|] eqn:Hs; [|reflexivity].
  apply search_consumes in Hs. f_equal. apply IH; lia.
Qed.

Lemma tagRegex_fuel (s : bytes) (n : nat) :
  regexp.allMatches (S (length s) + n) tagRegex s
  = regexp.FindAllStringSubmatch tagRegex s.
Proof. apply allMatches_fuel; [vm_compute|]; lia. Qed.

(** *** Serialized entries *)

Lemma search_entry (k v tail : bytes) :
  wfTag k v -> stops tail ->
  exists caps, regexp.search tagRegex (render (k, v) ++ tail) = Some (caps, tail)
               /\ entryOf caps = (k, v).
Proof.
  intros (Hk & Hcls & Hv) Htail. unfold render. case_bool_decide as Hempty.
  - subst v. exists (<[1%nat := k]> ∅). split; [|reflexivity].
    rewrite search_unfold, (matchAt_bare k tail Hk Hcls Htail). reflexivity.
  - eexists. split.
    + replace ((k ++ B ":" ++ [dquote] ++ v ++ [dquote]) ++ tail)
        with (k ++ ":"%char :: dquote :: v ++ dquote :: tail)
        by (rewrite <- !app_assoc; reflexivity).
      rewrite search_unfold, (matchAt_valued k v tail Hk Hcls Hv). reflexivity.
    + reflexivity.
Qed.

Lemma search_space (s : bytes) :
  regexp.search tagRegex (" "%char :: s) = regexp.search tagRegex s.
Proof. rewrite search_unfold. reflexivity. Qed.

Lemma allMatches_text (l : list (bytes * bytes)) :
  Forall (fun e => wfTag e.1 e.2) l ->
  forall fuel, (length l < fuel)%nat ->
  entryOf <$> regexp.allMatches fuel tagRegex (text l) = l.
Proof.
  induction 1 as [|[k v] l Hwf Hl IH]; intros fuel Hfuel.
  - destruct fuel; reflexivity.
  - destruct fuel as [|fuel]; [lia|]. simpl in Hfuel.
    change (text ((k, v) :: l)) with (" "%char :: render (k, v) ++ text l).
    cbn [regexp.allMatches]. rewrite search_space.
    destruct (search_entry k v (text l) Hwf (stops_text l)) as (caps & -> & Hcaps).
    rewrite fmap_cons, Hcaps, IH by lia. reflexivity.
Qed.

Lemma length_text (l : list (bytes * bytes)) : (length l <= length (text l))%nat.
Proof.
  induction l as [|e l IH]; simpl; [lia|].
  rewrite length_app. fold (text l). lia.
Qed.

Lemma length_render (k v : bytes) : k <> [] -> (0 < length (render (k, v)))%nat.
Proof.
  intros Hk. unfold render. destruct k; [congruence|].
  case_bool_decide; simpl; lia.
Qed.

Lemma FindAll_trimmed (l : list (bytes * bytes)) :
  Forall (fun e => wfTag e.1 e.2) l ->
  entryOf <$> regexp.FindAllStringSubmatch tagRegex (strings.TrimPrefix (text l) (B " ")) = l.
Proof.
  intros Hl. destruct Hl as [|[k v] l Hwf Hl]; [reflexivity|].
  change (text ((k, v) :: l)) with (" "%char :: render (k, v) ++ text l).
  change (strings.TrimPrefix _ _) with (render (k, v) ++ text l).
  unfold regexp.FindAllStringSubmatch. cbn [regexp.allMatches].
  destruct (search_entry k v (text l) Hwf (stops_text l)) as (caps & -> & Hcaps).
  rewrite fmap_cons, Hcaps, allMatches_text; [reflexivity|exact Hl|].
  rewrite length_app. pose proof (length_text l).
  pose proof (length_render k v (proj1 Hwf)). lia.
Qed.

Lemma foldl_insert (l : list (bytes * bytes)) :
  NoDup l.*1 ->
  foldl (fun (tags : gmap bytes bytes) e => <[e.1 := e.2]> tags) ∅ l = list_to_map l.
Proof.
  induction l as [|[k v] l IH] using rev_ind; intros Hnd; [reflexivity|].
  rewrite fmap_app in Hnd. apply NoDup_app in Hnd as (Hnd & Hk & _).
  rewrite foldl_snoc, IH by exact Hnd. simpl.
  rewrite list_to_map_snoc; [reflexivity|].
  intros Hin. apply (Hk k Hin). left.
Qed.

Lemma tagParser_text (l : list (bytes * bytes)) :
  Forall (fun e => wfTag e.1 e.2) l -> NoDup l.*1 ->
  tagParser (strings.TrimPrefix (text l) (B " ")) = list_to_map l.
Proof.
  intros Hl Hnd. rewrite <- (foldl_insert l Hnd).
  rewrite <- (FindAll_trimmed l Hl) at 2.
  rewrite foldl_fmap. reflexivity.
Qed.

(** C5, amended: for tag entries with distinct, non-empty keys, whose keys
    and values stay within the character class, parsing what [tagString]
    wrote gives the same entries back (the same map), in whatever order
    they were visited. *)
Theorem tagParser_tagString (rho : RangeOrder) (m : gmap bytes bytes) :
  validOrder rho ->
  (forall k v, m !! k = Some v -> wfTag k v) ->
  tagParser (tagString rho m) = m.
Proof.
  intros Hrho Hm. unfold tagString. rewrite tagStringLoop_text.
  rewrite tagParser_text.
  - rewrite <- (list_to_map_to_list m) at 2.
    apply list_to_map_proper; [|apply Hrho].
    rewrite (Hrho m). apply NoDup_fst_map_to_list.
  - apply Forall_forall. intros [k v] Hin. apply Hm.
    rewrite (Hrho m) in Hin. apply elem_of_map_to_list in Hin. exact Hin.
  - rewrite (Hrho m). apply NoDup_fst_map_to_list.
Qed.

Lemma tagParser_tagString_witness :
  tagParser (tagString reverseOrder (list_to_map abEntries)) = list_to_map abEntries.
Proof.
  apply (tagParser_tagString reverseOrder (list_to_map abEntries)).
  - apply reverseOrder_valid.
  - intros k v Hkv. apply elem_of_list_to_map_2 in Hkv.
    unfold abEntries in Hkv.
    apply elem_of_cons in Hkv as [[= -> ->]|Hkv]; [repeat split; discriminate|].
    apply list_elem_of_singleton in Hkv as [= -> ->]. repeat split; discriminate.
Defined.

(** C5, as stated, fails: the entries [a], [b] are within the grammar,
    yet the map parsed from their serialized form, visited in an admissible
    order, gives them back as [b], [a]. *)
Lemma tag_entry_order_is_lost :
  exists rho : RangeOrder,
    validOrder rho
    /\ Forall (fun e => wfTag e.1 e.2) abEntries
    /\ rho (tagParser (strings.TrimPrefix (tagStringLoop abEntries) (B " ")))
       = [(B "b", B "2"); (B "a", B "1")]
    /\ [(B "b", B "2"); (B "a", B "1")] <> abEntries.
Proof.
  exists listOrder. split; [apply listOrder_valid|]. split.
  - repeat constructor; discriminate.
  - split; [vm_compute; reflexivity|discriminate].
Qed.

(** ** [CamelToSnake] returns on every string

    The loop indexes the runes of [s] with [i] and slices the bytes of [s]
    with the same numbers.  No slice goes out of range all the same: a
    rune index never exceeds the byte offset of its rune, and the jump past
    an initialism is taken at the rune right after [lastPos], or later only
    when enough multi-byte runes precede it. *)

Lemma first_lead (b : Z) (sz : nat) (lo hi : Z) :
  utf8.first b = utf8.lead sz lo hi ->
  (sz = 2 \/ sz = 3 \/ sz = 4)%nat /\ 0x80 <= lo.
Proof.
  unfold utf8.first, utf8.locb.
  repeat case_match; intros [= <- <- <-]; split; try lia; auto.
Qed.

Lemma first_ascii (b : Z) : b < 0x80 -> utf8.first b = utf8.as_.
Proof.
  intros Hb. unfold utf8.first.
  destruct (Z.ltb_spec b 0x80); [reflexivity|lia].
Qed.

(** What one decoding step consumes: between one byte and the whole input,
    and only bytes of 0x80 and above after the first. *)
Lemma DecodeRune_size (s : bytes) (r : Z) (size : nat) :
  s <> [] -> utf8.DecodeRuneInString s = (r, size) ->
  (1 <= size <= length s)%nat
  /\ forall k c, (1 <= k < size)%nat -> s !! k = Some c -> 0x80 <= byteZ c.
Proof.
  intros Hs. destruct s as [|c0 t0]; [congruence|]. clear Hs.
  unfold utf8.DecodeRuneInString.
  destruct (utf8.first (byteZ c0)) as [| |sz lo hi] eqn:Hfirst;
    try (intros [= <- <-]; split; [simpl; lia|intros; lia]).
  apply first_lead in Hfirst as [Hsz Hlo].
  unfold utf8.locb.
  repeat (case_match; try (intros [= <- <-]; split; [simpl; lia|intros; lia])).
  all: intros [= <- <-]; simpl in *; split; try lia.
  all: intros k c Hk Hkc.
  all: repeat (destruct k as [|k]; try lia; simpl in Hkc; simplify_eq; try lia).
Qed.

Lemma DecodeRune_ascii (c : ascii) (t : bytes) :
  byteZ c < 0x80 -> utf8.DecodeRuneInString (c :: t) = (byteZ c, 1%nat).
Proof.
  intros Hc. unfold utf8.DecodeRuneInString. rewrite first_ascii by exact Hc.
  reflexivity.
Qed.

Lemma decode_step (fuel : nat) (c : ascii) (t : bytes) :
  utf8.decode (S fuel) (c :: t)
  = (utf8.DecodeRuneInString (c :: t)).1
    :: utf8.decode fuel (drop (utf8.DecodeRuneInString (c :: t)).2 (c :: t)).
Proof.
  cbn [utf8.decode]. destruct (utf8.DecodeRuneInString (c :: t)). reflexivity.
Qed.

(** Fuel beyond the length of the input changes nothing. *)
Lemma decode_fuel (fuel : nat) (s : bytes) :
  (length s <= fuel)%nat -> utf8.decode fuel s = utf8.runes s.
Proof.
  unfold utf8.runes. revert s.
  induction fuel as [fuel IH] using lt_wf_ind. intros s Hfuel.
  destruct s as [|c t]; [destruct fuel; reflexivity|].
  destruct fuel as [|fuel]; [simpl in Hfuel; lia|].
  cbn [length]. rewrite !decode_step.
  destruct (utf8.DecodeRuneInString (c :: t)) as [r size] eqn:Hdec.
  destruct (DecodeRune_size (c :: t) r size ltac:(discriminate) Hdec) as [Hsize _].
  cbn [fst snd]. f_equal.
  assert (length (drop size (c :: t)) <= length t)%nat as Hlen
    by (rewrite length_drop; simpl in *; lia).
  rewrite (IH fuel) by (simpl in Hfuel; lia).
  rewrite (IH (length t)) by (simpl in *; lia).
  reflexivity.
Qed.

Lemma runes_step (c : ascii) (t : bytes) :
  utf8.runes (c :: t)
  = (utf8.DecodeRuneInString (c :: t)).1
    :: utf8.runes (drop (utf8.DecodeRuneInString (c :: t)).2 (c :: t)).
Proof.
  unfold utf8.runes at 1. cbn [length]. rewrite decode_step. f_equal.
  apply decode_fuel.
  destruct (utf8.DecodeRuneInString (c :: t)) as [r size] eqn:Hdec.
  destruct (DecodeRune_size (c :: t) r size ltac:(discriminate) Hdec) as [Hsize _].
  rewrite length_drop. simpl in *. lia.
Qed.

Lemma runes_ascii (c : ascii) (t : bytes) :
  byteZ c < 0x80 -> utf8.runes (c :: t) = byteZ c :: utf8.runes t.
Proof.
  intros Hc. rewrite runes_step, DecodeRune_ascii by exact Hc. reflexivity.
Qed.

Lemma runes_ascii_app (w t : bytes) :
  Forall (fun c => byteZ c < 0x80) w ->
  utf8.runes (w ++ t) = (byteZ <$> w) ++ utf8.runes t.
Proof.
  induction 1 as [|c w Hc Hw IH]; [reflexivity|].
  simpl. rewrite runes_ascii by exact Hc. rewrite IH. reflexivity.
Qed.

(** There are no more runes than bytes. *)
Lemma length_runes (s : bytes) : (length (utf8.runes s) <= length s)%nat.
Proof.
  remember (length s) as n eqn:Hn. revert s Hn.
  induction n as [n IH] using lt_wf_ind. intros s ->.
  destruct s as [|c t]; [reflexivity|].
  rewrite runes_step.
  destruct (utf8.DecodeRuneInString (c :: t)) as [r size] eqn:Hdec.
  destruct (DecodeRune_size (c :: t) r size ltac:(discriminate) Hdec) as [Hsize _].
  cbn [fst snd length].
  specialize (IH (length (drop size (c :: t)))).
  rewrite length_drop in IH. simpl in *.
  specialize (IH ltac:(lia) (drop size (c :: t))). rewrite length_drop in IH.
  simpl in IH. specialize (IH eq_refl). lia.
Qed.

(** An ASCII byte is never inside the encoding of a rune: the bytes from
    it on decode to a suffix of the runes, which starts no later than the
    byte does. *)
Lemma runes_align (q : nat) (s : bytes) (c : ascii) (t : bytes) :
  drop q s = c :: t -> byteZ c < 0x80 ->
  exists r0, (r0 <= q)%nat /\ drop r0 (utf8.runes s) = utf8.runes (c :: t).
Proof.
  revert s. induction q as [q IH] using lt_wf_ind. intros s Hdrop Hc.
  destruct q as [|q].
  - exists 0%nat. rewrite drop_0 in Hdrop. rewrite drop_0, Hdrop. split; [lia|reflexivity].
  - destruct s as [|c0 t0]; [discriminate|].
    rewrite runes_step.
    destruct (utf8.DecodeRuneInString (c0 :: t0)) as [r size] eqn:Hdec.
    destruct (DecodeRune_size (c0 :: t0) r size ltac:(discriminate) Hdec)
      as [Hsize Hcont].
    cbn [fst snd].
    destruct (decide (S q < size)%nat) as [Hin|Hout].
    + assert ((c0 :: t0) !! S q = Some c) as Hq.
      { rewrite <- (Nat.add_0_r (S q)), <- lookup_drop, Hdrop. reflexivity. }
      specialize (Hcont (S q) c ltac:(lia) Hq). lia.
    + destruct (IH (S q - size)%nat ltac:(lia) (drop size (c0 :: t0))) as (r0 & Hr0 & Halign).
      * rewrite drop_drop. replace (size + (S q - size))%nat with (S q) by lia.
        exact Hdrop.
      * exact Hc.
      * exists (S r0). split; [lia|]. exact Halign.
Qed.

Lemma startsWithInitialism_spec (tl : bytes) :
  startsWithInitialism tl = []
  \/ (isInitialism (startsWithInitialism tl) = true
      /\ exists rest, tl = startsWithInitialism tl ++ rest).
Proof.
  unfold startsWithInitialism. simpl.
  repeat case_match; auto.
  all: right; split;
    [match goal with H : _ && _ = true |- isInitialism (take ?i _) = true =>
       apply andb_true_iff in H as [_ H]; exact H end
    |eexists; symmetry; apply take_drop].
Qed.

Lemma initialisms_shape :
  Forall (fun k => initialismShape (B k) = true) initialisms.
Proof. repeat constructor. Qed.

Lemma isInitialism_shape (ini : bytes) :
  isInitialism ini = true -> initialismShape ini = true.
Proof.
  unfold isInitialism. destruct (commonInitialisms !! ini) as [b|] eqn:E; [|discriminate].
  simpl. intros ->. apply elem_of_list_to_map_2 in E.
  apply list_elem_of_fmap in E as (k & [= ->] & Hk).
  pose proof initialisms_shape as Hall. rewrite Forall_forall in Hall.
  exact (Hall k Hk).
Qed.

Lemma isInitialism_length (ini : bytes) :
  isInitialism ini = true -> (2 <= length ini <= 5)%nat.
Proof.
  intros Hini. apply isInitialism_shape in Hini.
  apply andb_true_iff in Hini as [[_ [H2 H5]%andb_true_iff]%andb_true_iff _].
  apply Nat.leb_le in H2, H5. lia.
Qed.

(** X4: the longest match wins: when the first [n] bytes of [s] are an
    initialism, [startsWithInitialism] answers an initialism that begins
    [s] and is [n] bytes long at least. *)
Theorem startsWithInitialism_longest (s : bytes) (n : nat) :
  (n <= length s)%nat -> isInitialism (take n s) = true ->
  isInitialism (startsWithInitialism s) = true
  /\ startsWithInitialism s = take (length (startsWithInitialism s)) s
  /\ (n <= length (startsWithInitialism s))%nat.
Proof.
  intros Hn Hini.
  pose proof (isInitialism_length _ Hini) as Hlen.
  rewrite length_take in Hlen.
  assert (forall i, (n <= i)%nat -> (i - 1 <? length s)%nat && isInitialism (take i s) = true ->
            isInitialism (take i s) = true /\ take i s = take (length (take i s)) s
            /\ (n <= length (take i s))%nat) as Hstep.
  { intros i Hi [Hlt Hi2]%andb_true_iff. apply Nat.ltb_lt in Hlt.
    pose proof (isInitialism_length _ Hi2) as Hl. rewrite length_take in Hl.
    rewrite length_take. replace (i `min` length s)%nat with i by lia.
    repeat split; [exact Hi2|lia]. }
  assert ((n - 1 <? length s)%nat && isInitialism (take n s) = true) as Hcond.
  { apply andb_true_iff. split; [apply Nat.ltb_lt; lia|exact Hini]. }
  unfold startsWithInitialism. simpl.
  assert (n = 2 \/ n = 3 \/ n = 4 \/ n = 5)%nat as Hcases by lia.
  destruct Hcases as [-> | [-> | [-> | ->]]]; simpl in Hcond;
    repeat case_match; try congruence;
    match goal with
    | |- isInitialism (take ?i _) = true /\ _ => apply (Hstep i); [lia|assumption]
    end.
Qed.

Lemma startsWithInitialism_longest_witness :
  isInitialism (startsWithInitialism (B "HTTPServer")) = true
  /\ startsWithInitialism (B "HTTPServer")
     = take (length (startsWithInitialism (B "HTTPServer"))) (B "HTTPServer")
  /\ (4 <= length (startsWithInitialism (B "HTTPServer")))%nat.
Proof.
  apply (startsWithInitialism_longest (B "HTTPServer") 4);
    [vm_compute; lia|reflexivity].
Defined.

Lemma IsUpper_ascii_upper `{UnicodeTables} (c : ascii) :
  between 0x41 0x5A c = true -> unicode.IsUpper (byteZ c) = true.
Proof.
  unfold between, unicode.IsUpper, unicode.latin1Upper, unicode.MaxLatin1.
  intros [H1 H2]%andb_true_iff. apply Z.leb_le in H1, H2.
  destruct (Z.leb_spec 0 (byteZ c)); [|lia].
  destruct (Z.leb_spec (byteZ c) 255); [|lia]. simpl.
  destruct (Z.leb_spec 65 (byteZ c)); [|lia].
  destruct (Z.leb_spec (byteZ c) 90); [|lia]. reflexivity.
Qed.

Lemma sliceFrom_Some (s : bytes) (lo : nat) :
  (lo <= length s)%nat -> sliceFrom s lo = Some (drop lo s).
Proof.
  intros Hlo. unfold sliceFrom, slice.
  destruct (Nat.leb_spec lo (length s)); [|lia].
  destruct (Nat.leb_spec (length s) (length s)); [|lia]. simpl.
  rewrite take_ge by (rewrite length_drop; lia). reflexivity.
Qed.

Lemma slice_Some (s : bytes) (lo hi : nat) :
  (lo <= hi <= length s)%nat -> slice s lo hi = Some (take (hi - lo) (drop lo s)).
Proof.
  intros Hlo. unfold slice.
  destruct (Nat.leb_spec lo hi); [|lia].
  destruct (Nat.leb_spec hi (length s)); [|lia]. reflexivity.
Qed.

Section Totality.
Context `{UnicodeTables}.

(** The jump past an initialism stays within the string. *)
Lemma jump_in_range (s : bytes) (i lastPos : nat) :
  (i < length (utf8.runes s))%nat -> (lastPos < i)%nat ->
  (forall j r, (lastPos < j < i)%nat -> utf8.runes s !! j = Some r ->
               unicode.IsUpper r = false) ->
  startsWithInitialism (drop lastPos s) <> [] ->
  (i + (length (startsWithInitialism (drop lastPos s)) - 1) <= length s)%nat.
Proof.
  intros Hi Hlast Hlow Hne.
  destruct (startsWithInitialism_spec (drop lastPos s)) as [?|[Hini [rest Hrest]]];
    [contradiction|].
  set (ini := startsWithInitialism (drop lastPos s)) in *.
  apply isInitialism_shape in Hini.
  apply andb_true_iff in Hini as [[Hascii _]%andb_true_iff Hupper].
  assert (Forall (fun c => byteZ c < 128) ini) as Hascii'.
  { apply Forall_forall. intros c Hc. rewrite forallb_forall in Hascii.
    apply Z.ltb_lt, Hascii, list_elem_of_In, Hc. }
  assert (1 <= length ini)%nat as Hpos.
  { destruct ini; [congruence|simpl; lia]. }
  assert (length s = lastPos + length ini + length rest)%nat as Hlen.
  { pose proof (f_equal length Hrest) as Hl.
    rewrite length_drop, length_app in Hl.
    lia. }
  destruct (decide (i = S lastPos)) as [->|Hfar]; [lia|].
  destruct ini as [|c ini'] eqn:Eini; [congruence|].
  destruct (runes_align lastPos s c (ini' ++ rest) Hrest) as (r0 & Hr0 & Halign).
  { inversion Hascii'. assumption. }
  change (c :: ini' ++ rest) with ((c :: ini') ++ rest) in Halign.
  rewrite runes_ascii_app in Halign by exact Hascii'.
  assert (length (utf8.runes s) + (lastPos - r0) <= length s)%nat as Hexcess.
  { pose proof (f_equal length Halign) as Hl.
    rewrite length_drop, length_app, length_fmap in Hl.
    pose proof (length_runes rest). lia. }
  assert (length (c :: ini') <= (lastPos - r0) + 2)%nat as Hshort.
  { destruct (decide (length (c :: ini') <= (lastPos - r0) + 2)%nat) as [|Hlong];
      [assumption|exfalso].
    set (k := S (lastPos - r0)).
    assert (k + 1 < length (c :: ini'))%nat as Hk by (unfold k; lia).
    destruct (lookup_lt_is_Some_2 (c :: ini') k ltac:(lia)) as [ck Hck].
    assert (utf8.runes s !! S lastPos = Some (byteZ ck)) as Hr.
    { replace (S lastPos) with (r0 + k)%nat by (unfold k; lia).
      rewrite <- lookup_drop, Halign, lookup_app_l by (rewrite length_fmap; lia).
      rewrite list_lookup_fmap, Hck. reflexivity. }
    specialize (Hlow (S lastPos) (byteZ ck) ltac:(lia) Hr).
    rewrite IsUpper_ascii_upper in Hlow; [discriminate|].
    rewrite forallb_forall in Hupper. apply Hupper, list_elem_of_In.
    apply list_elem_of_lookup. exists (k - 1)%nat.
    rewrite lookup_take, decide_True by lia. rewrite lookup_drop.
    replace (1 + (k - 1))%nat with k by (unfold k; lia). exact Hck. }
  lia.
Qed.

Lemma scan_total (s : bytes) (fuel : nat) :
  forall i lastPos words,
    (length (utf8.runes s) - i < fuel)%nat ->
    (lastPos <= length s)%nat ->
    (i = 0 /\ lastPos = 0 \/ lastPos < i)%nat ->
    (forall j r, (lastPos < j < i)%nat -> utf8.runes s !! j = Some r ->
                 unicode.IsUpper r = false) ->
    exists lp ws, scan fuel s (utf8.runes s) i lastPos words = Some (lp, ws)
                  /\ (lp <= length s)%nat.
Proof.
  induction fuel as [|fuel IH]; intros i lastPos words Hfuel Hlast Hpos Hlow; [lia|].
  pose proof (length_runes s) as Hrunes.
  cbn [scan]. destruct (Nat.ltb_spec i (length (utf8.runes s))) as [Hi|Hi];
    [|eauto].
  destruct ((0 <? i)%nat && unicode.IsUpper (nth i (utf8.runes s) 0)) eqn:Hup.
  - apply andb_true_iff in Hup as [Hi0 _]. apply Nat.ltb_lt in Hi0.
    assert (lastPos < i)%nat as Hlt by lia.
    rewrite sliceFrom_Some by exact Hlast. cbn [mbind option_bind].
    case_bool_decide as Hini.
    + apply IH; [lia| |lia|intros; lia].
      apply jump_in_range; assumption.
    + rewrite slice_Some by lia. cbn [mbind option_bind].
      apply IH; [lia|lia|lia|intros; lia].
  - apply IH; [lia|exact Hlast|lia|].
    intros j r Hj Hr. destruct (decide (j = i)) as [->|Hne].
    + apply andb_false_iff in Hup as [Hi0|Hup].
      * apply Nat.ltb_ge in Hi0. lia.
      * rewrite nth_lookup, Hr in Hup. exact Hup.
    + apply (Hlow j r); [lia|exact Hr].
Qed.

Lemma camelWords_total (s : bytes) : exists ws, camelWords s = Some ws.
Proof.
  unfold camelWords.
  destruct (scan_total s (S (length (utf8.runes s))) 0 0 [])
    as (lp & ws & -> & Hlp); [lia|lia|lia|intros; lia|].
  cbn [mbind option_bind]. rewrite sliceFrom_Some by exact Hlp.
  cbn [mbind option_bind]. eauto.
Qed.

(** X1: for every byte string, valid UTF-8 or not, [CamelToSnake] returns
    a string: no slice of the loop is out of range, and the fuel of the model
    is never used up. *)
Theorem CamelToSnake_total (s : bytes) : exists out, CamelToSnake s = Some out.
Proof.
  unfold CamelToSnake. destruct (camelWords_total s) as [ws ->]. simpl. eauto.
Qed.
End Totality.

(** ** ASCII identifiers

    When every byte of the identifier is ASCII, rune indexes and byte
    offsets agree, and the words are consecutive pieces of the input. *)

Lemma isASCII_Forall (s : bytes) :
  strings.isASCII s = true <-> Forall (fun c => byteZ c < 0x80) s.
Proof.
  unfold strings.isASCII, utf8.RuneSelf. rewrite forallb_forall, Forall_forall.
  split; intros Hs c Hc.
  - apply Z.ltb_lt, Hs, list_elem_of_In, Hc.
  - apply Z.ltb_lt, Hs, list_elem_of_In, Hc.
Qed.

Lemma runes_of_ascii (s : bytes) :
  strings.isASCII s = true -> utf8.runes s = byteZ <$> s.
Proof.
  intros Hs. rewrite <- (app_nil_r s) at 1.
  rewrite runes_ascii_app by (apply isASCII_Forall, Hs).
  apply app_nil_r.
Qed.

Lemma take_past (s w rest : bytes) (a : nat) :
  drop a s = w ++ rest -> take (a + length w) s = take a s ++ w.
Proof.
  intros Hdrop. rewrite <- take_take_drop, Hdrop, take_app_length. reflexivity.
Qed.

Section Ascii.
Context `{UnicodeTables}.

(** On ASCII input the jump past an initialism is taken at the byte right
    after [lastPos]: the second byte of an initialism is upper case. *)
Lemma ascii_jump (s : bytes) (i lastPos : nat) :
  strings.isASCII s = true ->
  (lastPos < i)%nat ->
  (forall j r, (lastPos < j < i)%nat -> utf8.runes s !! j = Some r ->
               unicode.IsUpper r = false) ->
  startsWithInitialism (drop lastPos s) <> [] ->
  i = S lastPos.
Proof.
  intros Hs Hlast Hlow Hne.
  destruct (startsWithInitialism_spec (drop lastPos s)) as [?|[Hini [rest Hrest]]];
    [contradiction|].
  set (ini := startsWithInitialism (drop lastPos s)) in *.
  apply isInitialism_shape in Hini.
  apply andb_true_iff in Hini as [[_ [Hlen _]%andb_true_iff]%andb_true_iff Hupper].
  apply Nat.leb_le in Hlen.
  destruct (decide (i = S lastPos)) as [|Hfar]; [assumption|exfalso].
  destruct (lookup_lt_is_Some_2 ini 1 ltac:(lia)) as [c1 Hc1].
  assert (utf8.runes s !! S lastPos = Some (byteZ c1)) as Hr.
  { rewrite runes_of_ascii, list_lookup_fmap by exact Hs.
    replace (S lastPos) with (lastPos + 1)%nat by lia.
    rewrite <- lookup_drop, Hrest, lookup_app_l, Hc1 by lia. reflexivity. }
  specialize (Hlow (S lastPos) (byteZ c1) ltac:(lia) Hr).
  rewrite IsUpper_ascii_upper in Hlow; [discriminate|].
  rewrite forallb_forall in Hupper. apply Hupper, list_elem_of_In.
  apply list_elem_of_lookup. exists 0%nat.
  rewrite lookup_take, decide_True by lia. rewrite lookup_drop. exact Hc1.
Qed.

Lemma scan_ascii (s : bytes) (fuel : nat) :
  strings.isASCII s = true ->
  forall i lastPos words,
    (length s - i < fuel)%nat ->
    (lastPos <= length s)%nat ->
    (i = 0 /\ lastPos = 0 \/ lastPos < i)%nat ->
    (forall j r, (lastPos < j < i)%nat -> utf8.runes s !! j = Some r ->
                 unicode.IsUpper r = false) ->
    concat words = take lastPos s ->
    Forall (fun w => w <> []) words ->
    exists lp ws, scan fuel s (utf8.runes s) i lastPos words = Some (lp, ws)
                  /\ (lp <= length s)%nat
                  /\ concat ws = take lp s
                  /\ Forall (fun w => w <> []) ws.
Proof.
  intros Hs. assert (length (utf8.runes s) = length s) as Hrunes
    by (rewrite runes_of_ascii, length_fmap by exact Hs; reflexivity).
  induction fuel as [|fuel IH];
    intros i lastPos words Hfuel Hlast Hpos Hlow Hcat Hwords; [lia|].
  cbn [scan]. rewrite Hrunes.
  destruct (Nat.ltb_spec i (length s)) as [Hi|Hi]; [|eauto 10].
  destruct ((0 <? i)%nat && unicode.IsUpper (nth i (utf8.runes s) 0)) eqn:Hup.
  - apply andb_true_iff in Hup as [Hi0 _]. apply Nat.ltb_lt in Hi0.
    assert (lastPos < i)%nat as Hlt by lia.
    rewrite sliceFrom_Some by exact Hlast. cbn [mbind option_bind].
    case_bool_decide as Hini.
    + pose proof (ascii_jump s i lastPos Hs Hlt Hlow Hini) as ->.
      destruct (startsWithInitialism_spec (drop lastPos s))
        as [?|[_ [rest Hrest]]]; [contradiction|].
      set (ini := startsWithInitialism (drop lastPos s)) in *.
      assert (1 <= length ini)%nat as Hlen by (destruct ini; [congruence|simpl; lia]).
      assert (lastPos + length ini <= length s)%nat as Hin.
      { pose proof (f_equal length Hrest) as Hl.
        rewrite length_drop, length_app in Hl. lia. }
      replace (S lastPos + (length ini - 1))%nat with (lastPos + length ini)%nat by lia.
      apply IH; [lia|exact Hin|lia|intros; lia| |].
      * rewrite concat_app, Hcat. simpl. rewrite app_nil_r.
        symmetry. apply (take_past s ini rest), Hrest.
      * apply Forall_app. split; [exact Hwords|]. constructor; [exact Hini|constructor].
    + rewrite slice_Some by lia. cbn [mbind option_bind].
      apply IH; [lia|lia|lia|intros; lia| |].
      * rewrite concat_app, Hcat. simpl. rewrite app_nil_r, take_take_drop.
        f_equal. lia.
      * apply Forall_app. split; [exact Hwords|]. constructor; [|constructor].
        intros Hnil. apply (f_equal length) in Hnil.
        rewrite length_take, length_drop in Hnil. simpl in Hnil. lia.
  - apply IH; [lia|exact Hlast|lia| |exact Hcat|exact Hwords].
    intros j r Hj Hr. destruct (decide (j = i)) as [->|Hne].
    + apply andb_false_iff in Hup as [Hi0|Hup].
      * apply Nat.ltb_ge in Hi0. lia.
      * rewrite nth_lookup, Hr in Hup. exact Hup.
    + apply (Hlow j r); [lia|exact Hr].
Qed.

Lemma camelWords_ascii (s : bytes) :
  strings.isASCII s = true ->
  exists ws, camelWords s = Some ws /\ concat ws = s
             /\ Forall (fun w => w <> []) ws.
Proof.
  intros Hs. unfold camelWords.
  assert (length (utf8.runes s) = length s) as Hrunes
    by (rewrite runes_of_ascii, length_fmap by exact Hs; reflexivity).
  destruct (scan_ascii s (S (length (utf8.runes s))) Hs 0 0 [])
    as (lp & ws & -> & Hlp & Hcat & Hws);
    [lia|lia|lia|intros; lia|reflexivity|constructor|].
  cbn [mbind option_bind]. rewrite sliceFrom_Some by exact Hlp.
  cbn [mbind option_bind]. case_bool_decide as Htl.
  - eexists. split; [reflexivity|]. split.
    + rewrite concat_app, Hcat. simpl. rewrite app_nil_r. apply take_drop.
    + apply Forall_app. split; [exact Hws|]. constructor; [exact Htl|constructor].
  - exists ws. split; [reflexivity|]. split; [|exact Hws].
    rewrite Hcat. apply take_ge.
    apply (f_equal length) in Htl.
    rewrite length_drop in Htl. simpl in Htl. lia.
Qed.

Lemma joinWords_Join (ws : list bytes) :
  joinWords ws = Join (strings.ToLower <$> ws) (B "_").
Proof.
  unfold joinWords.
  assert (forall ws acc k,
    (foldl (fun '(result, k) word =>
              let result := if (0 <? k)%nat then result ++ B "_" else result in
              (result ++ strings.ToLower word, S k)) (acc, S k) ws).1
    = acc ++ concat ((fun w => B "_" ++ strings.ToLower w) <$> ws)) as Hrest.
  { clear ws. induction ws as [|w ws IH]; intros acc k; simpl.
    - rewrite app_nil_r. reflexivity.
    - rewrite IH, <- !app_assoc. reflexivity. }
  assert (forall x xs, Join (x :: xs) (B "_")
                       = x ++ concat ((fun w => B "_" ++ w) <$> xs)) as HJoin.
  { intros x xs. revert x. induction xs as [|y xs IH]; intros x.
    - simpl. rewrite app_nil_r. reflexivity.
    - change (Join (x :: y :: xs) (B "_")) with (x ++ B "_" ++ Join (y :: xs) (B "_")).
      rewrite IH. simpl. reflexivity. }
  destruct ws as [|w ws]; [reflexivity|].
  rewrite fmap_cons, HJoin. cbn [foldl]. cbn [Nat.ltb Nat.leb].
  rewrite Hrest. simpl. rewrite <- list_fmap_compose. reflexivity.
Qed.

(** X2: on an ASCII identifier every byte passes through: the result is
    the input cut into non-empty words, each lowercased, joined by ["_"]. *)
Theorem CamelToSnake_ascii (s : bytes) :
  strings.isASCII s = true ->
  exists ws, concat ws = s /\ Forall (fun w => w <> []) ws
             /\ CamelToSnake s = Some (Join (strings.ToLower <$> ws) (B "_")).
Proof.
  intros Hs. destruct (camelWords_ascii s Hs) as (ws & Hws & Hcat & Hne).
  exists ws. split; [exact Hcat|]. split; [exact Hne|].
  unfold CamelToSnake. rewrite Hws. simpl. rewrite joinWords_Join. reflexivity.
Qed.
End Ascii.

(** ** Bytes lost on identifiers with multi-byte runes *)

(** C7, on a failing input: the identifier is the two bytes of U+00E9
    followed by IDxY.  Its runes are one fewer than its bytes, the rune
    indexes are used as byte offsets, and the words come out as the first
    byte of U+00E9, its second byte, ID and Y: the encoding of U+00E9 is
    cut in two and the byte x is in no word. *)
Theorem CamelToSnake_loses_bytes `{UnicodeTables} :
  let s := ascii_of_nat 195 :: ascii_of_nat 169 :: B "IDxY" in
  utf8.runes s = [0xE9; 0x49; 0x44; 0x78; 0x59]
  /\ camelWords s = Some [[ascii_of_nat 195]; [ascii_of_nat 169]; B "ID"; B "Y"]
  /\ CamelToSnake s
     = Some (strings.ToLower [ascii_of_nat 195] ++ B "_"
             ++ strings.ToLower [ascii_of_nat 169] ++ B "_id_y").
Proof.
  intros s.
  assert (camelWords s
          = Some [[ascii_of_nat 195]; [ascii_of_nat 169]; B "ID"; B "Y"]) as Hwords
    by (vm_compute; reflexivity).
  split; [vm_compute; reflexivity|]. split; [exact Hwords|].
  unfold CamelToSnake. rewrite Hwords. unfold joinWords. simpl.
  rewrite <- !app_assoc. reflexivity.
Qed.

Lemma CamelToSnake_ascii_witness :
  exists ws, concat ws = B "APIKeyID" /\ Forall (fun w => w <> []) ws
             /\ @CamelToSnake asciiTables (B "APIKeyID")
                = Some (Join (@strings.ToLower asciiTables <$> ws) (B "_")).
Proof. apply (@CamelToSnake_ascii asciiTables (B "APIKeyID")). reflexivity. Defined.

(** ** The first scenario of the specification *)

(** An example: for [User] with the fields [ID], untagged, and [UserName],
    tagged with a json value that starts with a comma, the mirror type has
    both fields in their order, tagged id and user_name,omitempty, and the
    constructor copies both. *)
Theorem emitStruct_User `{UnicodeTables} (rhos : FieldOrders) :
  validOrders rhos ->
  emitStruct rhos [] (B "User") userFields
  = Some (lines
      [B "type UserJSON struct {";
       B "ID int `json:" ++ quoted "id" ++ B "`";
       B "UserName string `json:" ++ quoted "user_name,omitempty" ++ B "`";
       B "}";
       [];
       B "func (m User) MarshalJSON() ([]byte, error) {";
       tab ++ B "j := NewUserJSON(&m)";
       tab ++ B "return json.Marshal(j)";
       B "}";
       [];
       B "func NewUserJSON(m *User) *UserJSON {";
       tab ++ B "v := &UserJSON{}";
       tab ++ B "v.ID = m.ID";
       tab ++ B "v.UserName = m.UserName";
       B "return v";
       B "}";
       []]).
Proof. intros Hrhos. eval_small_orders rhos Hrhos. reflexivity. Qed.

Lemma emitStruct_User_witness :
  exists out,
    @emitStruct asciiTables (constOrders listOrder) [] (B "User") userFields
    = Some out.
Proof.
  eexists. apply (@emitStruct_User asciiTables (constOrders listOrder)).
  intros i. apply listOrder_valid.
Defined.

(** ** The shape of the generated text *)

Lemma foldlM_app {A S : Type} (f : S -> A -> option S) (l1 l2 : list A) (st : S) :
  foldlM f st (l1 ++ l2) = foldlM f st l1 ≫= fun st' => foldlM f st' l2.
Proof.
  revert st. induction l1 as [|x l1 IH]; intros st; simpl; [reflexivity|].
  destruct (f st x) as [st'|]; simpl; [apply IH|reflexivity].
Qed.

Lemma foldlM_concat {A C S : Type} (f : S -> A -> option S) (g : C -> list A)
    (l : list C) (st : S) :
  foldlM f st (concat (g <$> l)) = foldlM (fun st c => foldlM f st (g c)) st l.
Proof.
  revert st. induction l as [|c l IH]; intros st; simpl; [reflexivity|].
  rewrite foldlM_app. destruct (foldlM f st (g c)) as [st'|]; simpl;
    [apply IH|reflexivity].
Qed.

(** A loop whose body fails on the elements with [P], whatever the state,
    fails exactly when the list has such an element. *)
Lemma foldlM_None {A S : Type} (f : S -> A -> option S) (P : A -> Prop)
    (l : list A) :
  (forall st x, f st x = None <-> P x) ->
  forall st, foldlM f st l = None <-> Exists P l.
Proof.
  intros Hf. induction l as [|x l IH]; intros st; simpl.
  - split; [discriminate|intros H; inversion H].
  - rewrite Exists_cons. destruct (f st x) as [st'|] eqn:Hx; simpl.
    + rewrite IH. split; [auto|]. intros [HP|HP]; [|exact HP].
      apply Hf with (st := st) in HP. congruence.
    + split; [|reflexivity]. intros _. left. apply (Hf st). exact Hx.
Qed.

Section Shape.
Context `{UnicodeTables}.
Variable rho : RangeOrder.

Lemma synthesize_returns (fieldName : bytes) (tags : gmap bytes bytes) :
  exists tags', synthesize fieldName tags = Some tags'
                /\ is_Some (tags' !! B "json").
Proof.
  assert (exists label, CamelToSnake fieldName = Some label) as [label Hlabel].
  { unfold CamelToSnake. destruct (camelWords_total fieldName) as [ws ->].
    simpl. eauto. }
  unfold synthesize. rewrite Hlabel. cbn [mbind option_bind].
  destruct (tags !! B "json") as [jsonTag|] eqn:Hjson.
  - destruct (strings.HasPrefix jsonTag (B ",")).
    + eexists. split; [reflexivity|]. rewrite lookup_insert_eq. eauto.
    + eexists. split; [reflexivity|]. rewrite Hjson. eauto.
  - eexists. split; [reflexivity|]. rewrite lookup_insert_eq. eauto.
Qed.

Lemma tagValueOf_None (field : ast.Field) :
  tagValueOf field = None
  <-> exists v, ast.Tag field = Some v /\ (length v < 2)%nat.
Proof.
  unfold tagValueOf, slice. destruct (ast.Tag field) as [v|].
  - destruct (Nat.leb_spec 1 (length v - 1)); simpl.
    + destruct (Nat.leb_spec (length v - 1) (length v)); simpl; [|lia].
      split; [discriminate|]. intros (v' & [= <-] & Hlen). lia.
    + split; [|reflexivity]. intros _. exists v. split; [reflexivity|lia].
  - split; [discriminate|]. intros (v & Hv & _). discriminate.
Qed.

Lemma fieldStep_unfold (buf : bytes) (fieldNames : list bytes)
    (field : ast.Field) :
  fieldStep rho (buf, fieldNames) field =
  fieldName ← head (ast.Names field);
  match ast.Type_ field with
  | ast.Ident fieldType =>
    tagValue ← tagValueOf field;
    tags ← synthesize fieldName (tagParser tagValue);
    Some (buf ++ fieldName ++ B " " ++ fieldType ++ B " " ++ backquote
              ++ tagString rho tags ++ backquote ++ nl,
          fieldNames ++ [fieldName])
  | _ => Some (buf, fieldNames ++ [fieldName])
  end.
Proof. reflexivity. Qed.

Lemma fieldStep_None (st : bytes * list bytes) (field : ast.Field) :
  fieldStep rho st field = None <-> fieldPanics field = true.
Proof.
  destruct st as [buf names]. rewrite fieldStep_unfold.
  unfold fieldPanics, identTyped.
  destruct (ast.Names field) as [|fieldName rest]; simpl; [tauto|].
  destruct (ast.Type_ field) as [fieldType| | | | | |]; simpl;
    try (split; discriminate).
  destruct (tagValueOf field) as [tagValue|] eqn:Hv; simpl.
  - destruct (synthesize_returns fieldName (tagParser tagValue)) as (tags & -> & _).
    simpl. split; [discriminate|]. intros Hlen. exfalso.
    assert (tagValueOf field = None) as Hn; [|congruence].
    apply tagValueOf_None. destruct (ast.Tag field) as [v|]; [|discriminate].
    exists v. split; [reflexivity|apply Nat.ltb_lt, Hlen].
  - split; [|reflexivity]. intros _.
    apply tagValueOf_None in Hv as (v & -> & Hlen). apply Nat.ltb_lt. exact Hlen.
Qed.

End Shape.

Section Shape2.
Context `{UnicodeTables}.
Variable rhos : FieldOrders.

Lemma fieldIter_None (st : bytes * list bytes) (field : ast.Field) :
  fieldIter rhos st field = None <-> fieldPanics field = true.
Proof. unfold fieldIter. apply fieldStep_None. Qed.

Lemma foldlM_fieldIter_shape (fields : list ast.Field) :
  forall buf names buf' names',
    foldlM (fieldIter rhos) (buf, names) fields = Some (buf', names') ->
    exists mirror new,
      buf' = buf ++ concat mirror /\ names' = names ++ new
      /\ Forall2 (fun f n => head (ast.Names f) = Some n) fields new
      /\ Forall2 (fun f line => exists i, mirrorLine (rhos i) f line)
           (filter (fun f => identTyped f = true) fields) mirror.
Proof.
  induction fields as [|f fields IH]; intros buf names buf' names'.
  - intros [= <- <-]. exists [], []. rewrite !app_nil_r.
    repeat split; constructor.
  - cbn [foldlM].
    change (fieldIter rhos (buf, names) f)
      with (fieldStep (rhos (length names)) (buf, names) f).
    set (i := length names). rewrite fieldStep_unfold.
    destruct (head (ast.Names f)) as [fieldName|] eqn:Hname; [|discriminate].
    cbn [mbind option_bind].
    destruct (ast.Type_ f) as [fieldType| | | | | |] eqn:Hty.
    2-7: intros Hrest; apply IH in Hrest as (mirror & new & -> & -> & Hn & Hm);
      exists mirror, (fieldName :: new);
      (split; [reflexivity|]); (split; [rewrite <- app_assoc; reflexivity|]);
      (split; [constructor; assumption|]);
      rewrite filter_cons_False by (unfold identTyped; rewrite Hty; discriminate);
      exact Hm.
    destruct (tagValueOf f) as [tagValue|] eqn:Hv; [|discriminate].
    cbn [mbind option_bind].
    destruct (synthesize fieldName (tagParser tagValue)) as [tags|] eqn:Hs;
      [|discriminate].
    cbn [mbind option_bind].
    intros Hrest. apply IH in Hrest as (mirror & new & -> & -> & Hn & Hm).
    eexists (_ :: mirror), (fieldName :: new).
    split; [cbn [concat]; rewrite <- app_assoc; reflexivity|].
    split; [rewrite <- app_assoc; reflexivity|].
    split; [constructor; assumption|].
    rewrite filter_cons_True by (unfold identTyped; rewrite Hty; reflexivity).
    constructor; [|exact Hm].
    exists i, fieldName, fieldType, tagValue, tags. repeat split; assumption.
Qed.

Lemma lines_nil : lines [] = [].
Proof. reflexivity. Qed.

Lemma lines_cons (ln : bytes) (l : list bytes) :
  lines (ln :: l) = ln ++ nl ++ lines l.
Proof. unfold lines. cbn [map concat]. rewrite <- app_assoc. reflexivity. Qed.

Lemma foldl_copyStep (names : list bytes) (buf : bytes) :
  foldl copyStep buf names
  = buf ++ concat ((fun n => tab ++ B "v." ++ n ++ B " = m." ++ n ++ nl) <$> names).
Proof.
  revert buf. induction names as [|n names IH]; intros buf.
  - cbn [foldl fmap list_fmap concat]. rewrite app_nil_r. reflexivity.
  - change (foldl copyStep buf (n :: names))
      with (foldl copyStep (copyStep buf n) names).
    rewrite IH, fmap_cons. unfold copyStep. cbn [concat].
    rewrite <- !app_assoc. reflexivity.
Qed.

(** When [emitStruct] returns, the text it appended is the mirror type
    with one line for every field whose type is an identifier, in the order
    of the fields, then [MarshalJSON], then the constructor with one
    assignment for every field, of whatever type, in the same order. *)
Lemma emitStruct_text (buf name : bytes) (fields : list ast.Field)
    (out : bytes) :
  emitStruct rhos buf name fields = Some out ->
  exists mirror names,
    out = buf ++ structText name mirror names
    /\ Forall2 (fun f n => head (ast.Names f) = Some n) fields names
    /\ Forall2 (fun f line => exists i, mirrorLine (rhos i) f line)
         (filter (fun f => identTyped f = true) fields) mirror.
Proof.
  unfold emitStruct.
  destruct (foldlM (fieldIter rhos) _ fields) as [[buf' names']|] eqn:Hloop;
    [|discriminate].
  apply foldlM_fieldIter_shape in Hloop as (mirror & names & -> & -> & Hn & Hm).
  cbn [mbind option_bind]. intros Hout%(inj Some). subst out.
  exists mirror, names. split; [|split; assumption].
  rewrite foldl_copyStep. unfold structText.
  rewrite !lines_cons, !lines_nil, <- !app_assoc, !app_nil_l, !app_nil_r.
  reflexivity.
Qed.

Lemma emitStruct_block (buf name : bytes) (fields : list ast.Field)
    (out : bytes) :
  validOrders rhos ->
  emitStruct rhos buf name fields = Some out ->
  exists block, out = buf ++ block /\ structBlock (name, fields) block.
Proof.
  intros Hrhos (mirror & names & -> & Hn & Hm)%emitStruct_text.
  eexists. split; [reflexivity|]. exists mirror, names.
  split; [reflexivity|]. split; [exact Hn|].
  eapply Forall2_impl; [exact Hm|]. intros f line [i Hline].
  exists (rhos i). split; [apply Hrhos|exact Hline].
Qed.

(** [emitStruct] panics exactly when one of the fields is embedded (it
    has no name) or has an identifier type and a tag literal shorter than
    its two quotes. *)
Lemma emitStruct_None (buf name : bytes) (fields : list ast.Field) :
  emitStruct rhos buf name fields = None
  <-> Exists (fun f => fieldPanics f = true) fields.
Proof.
  rewrite <- (foldlM_None (fieldIter rhos) (fun f => fieldPanics f = true) fields
                fieldIter_None
                (buf ++ B "type " ++ name ++ B "JSON struct {" ++ nl, [])).
  unfold emitStruct.
  destruct (foldlM (fieldIter rhos) _ fields) as [[buf' names']|]; simpl.
  - split; discriminate.
  - tauto.
Qed.

End Shape2.

(** ** The three loops of [main] as one loop over the selected structs *)

Lemma fmap_fst_None {A C : Type} (x : option (A * C)) :
  fst <$> x = None <-> x = None.
Proof. destruct x; simpl; split; congruence. Qed.

Section Selected.
Context `{UnicodeTables}.
Variable rhos : RangeOracle.

Lemma specStep_selected (types : list bytes) (st : bytes * nat)
    (spec : ast.Spec) :
  specStep rhos types st spec
  = foldlM (emitSelected rhos) st (selectedSpec types spec).
Proof.
  destruct st as [buf k]. destruct spec as [name ty| |]; try reflexivity.
  unfold specStep, selectedSpec.
  destruct ty; destruct (contains types name); try reflexivity.
  cbn [foldlM]. unfold emitSelected. cbn [fst snd].
  destruct (emitStruct (rhos k) buf name _); reflexivity.
Qed.

Lemma declStep_selected (types : list bytes) (st : bytes * nat)
    (decl : ast.Decl) :
  declStep rhos types st decl
  = foldlM (emitSelected rhos) st (selectedDecl types decl).
Proof.
  destruct decl as [tok specs| |]; try reflexivity.
  unfold declStep, selectedDecl. destruct tok; try reflexivity.
  rewrite bool_decide_eq_true_2 by reflexivity.
  rewrite foldlM_concat. apply foldlM_ext. intros st' spec _.
  apply specStep_selected.
Qed.

Lemma generate_selected (args : list bytes) (pkgName : bytes)
    (types : list bytes) (files : list ast.File) :
  generate rhos args pkgName types files
  = fst <$> foldlM (emitSelected rhos) (header args pkgName, 0%nat)
              (selected types files).
Proof.
  unfold generate, selected. f_equal. rewrite foldlM_concat.
  apply foldlM_ext. intros st file _. unfold fileStep.
  rewrite foldlM_concat. apply foldlM_ext. intros st' decl _.
  apply declStep_selected.
Qed.

Lemma emitSelected_None (st : bytes * nat) (sel : bytes * list ast.Field) :
  emitSelected rhos st sel = None
  <-> Exists (fun f => fieldPanics f = true) sel.2.
Proof.
  unfold emitSelected. rewrite <- (emitStruct_None (rhos st.2) st.1 sel.1).
  destruct (emitStruct (rhos st.2) st.1 sel.1 sel.2); simpl.
  - split; discriminate.
  - tauto.
Qed.

Lemma generate_None (args : list bytes) (pkgName : bytes)
    (types : list bytes) (files : list ast.File) :
  generate rhos args pkgName types files = None
  <-> Exists (fun sel => Exists (fun f => fieldPanics f = true) sel.2)
        (selected types files).
Proof.
  rewrite generate_selected, fmap_fst_None. apply foldlM_None.
  apply emitSelected_None.
Qed.

Lemma foldlM_emitSelected_text (sels : list (bytes * list ast.Field)) :
  validOracle rhos ->
  forall st st',
    foldlM (emitSelected rhos) st sels = Some st' ->
    exists blocks, st'.1 = st.1 ++ concat blocks
                   /\ Forall2 structBlock sels blocks.
Proof.
  intros Hrhos. induction sels as [|[name fields] sels IH]; intros st st'.
  - cbn [foldlM]. intros [= <-]. exists []. rewrite app_nil_r.
    split; [reflexivity|constructor].
  - cbn [foldlM].
    destruct (emitSelected rhos st (name, fields)) as [st1|] eqn:Hsel;
      cbn [mbind option_bind]; [|discriminate].
    intros Hrest. unfold emitSelected in Hsel. cbn [fst snd] in Hsel.
    destruct (emitStruct (rhos st.2) st.1 name fields) as [buf'|] eqn:Hemit;
      cbn [mbind option_bind] in Hsel; [|discriminate].
    apply (inj Some) in Hsel. subst st1.
    apply emitStruct_block in Hemit as (block & -> & Hblock); [|apply Hrhos].
    apply IH in Hrest as (blocks & -> & Hblocks).
    exists (block :: blocks). cbn [concat fst]. rewrite <- app_assoc.
    split; [reflexivity|]. constructor; assumption.
Qed.

Lemma generate_blocks (args : list bytes) (pkgName : bytes)
    (types : list bytes) (files : list ast.File) (out : bytes) :
  validOracle rhos ->
  generate rhos args pkgName types files = Some out ->
  exists blocks,
    out = header args pkgName ++ concat blocks
    /\ Forall2 structBlock (selected types files) blocks.
Proof.
  intros Hrhos. rewrite generate_selected.
  destruct (foldlM (emitSelected rhos) _ _) as [st'|] eqn:Hloop; [|discriminate].
  intros [= <-]. apply (foldlM_emitSelected_text _ Hrhos _ _ Hloop).
Qed.

(** X3: in every run, whatever order each range over a tag map takes, when
    the generator returns its buffer is the header followed by one block
    for every requested struct type, in the order of the files, the
    declarations and the specs; a block is the mirror type with a line for
    each field of an identifier type, its tags in some order of the map,
    then [MarshalJSON], and the constructor with an assignment for each
    field. *)
Theorem generate_shape (args : list bytes) (pkgName : bytes)
    (types : list bytes) (files : list ast.File) (out : bytes) :
  validOracle rhos ->
  generate rhos args pkgName types files = Some out ->
  exists blocks,
    out = header args pkgName ++ concat blocks
    /\ Forall2 structBlock (selected types files) blocks.
Proof.
  intros Hrhos Hgen.
  destruct (generate_blocks args pkgName types files out Hrhos Hgen)
    as (blocks & Hout & Hblocks).
  exists blocks. split; assumption.
Qed.

(** X7: the generator panics exactly when a requested struct type has an
    embedded field, or a field of an identifier type whose tag literal is
    shorter than its two quotes.  Nothing else makes it panic. *)
Theorem generate_panics (args : list bytes) (pkgName : bytes)
    (types : list bytes) (files : list ast.File) :
  generate rhos args pkgName types files = None
  <-> Exists (fun sel => Exists (fun f => fieldPanics f = true) sel.2)
        (selected types files).
Proof.
  rewrite generate_selected, fmap_fst_None. apply foldlM_None.
  intros st [name fields]. apply emitSelected_None.
Qed.

End Selected.

(** ** Tags with the [json] key only *)

Lemma synthesize_lookup_ne `{UnicodeTables} (fieldName : bytes)
    (tags tags' : gmap bytes bytes) (k : bytes) :
  synthesize fieldName tags = Some tags' -> k <> B "json" ->
  tags' !! k = tags !! k.
Proof.
  unfold synthesize. intros Hs Hk.
  destruct (tags !! B "json") as [jsonTag|].
  - destruct (strings.HasPrefix jsonTag (B ",")).
    + destruct (CamelToSnake fieldName) as [label|]; [|discriminate].
      cbn [mbind option_bind] in Hs. injection Hs as <-.
      apply lookup_insert_ne. intros Heq. apply Hk. symmetry. exact Heq.
    + injection Hs as <-. reflexivity.
  - destruct (CamelToSnake fieldName) as [label|]; [|discriminate].
    cbn [mbind option_bind] in Hs. injection Hs as <-.
    apply lookup_insert_ne. intros Heq. apply Hk. symmetry. exact Heq.
Qed.

Lemma one_key_small (m : gmap bytes bytes) (key : bytes) :
  (forall k, k <> key -> m !! k = None) ->
  (length (map_to_list m) <= 1)%nat.
Proof.
  intros Hm. pose proof (NoDup_fst_map_to_list m) as Hnd.
  assert (Forall (fun e => e.1 = key) (map_to_list m)) as Hall.
  { apply Forall_forall. intros [k v] Hin. apply elem_of_map_to_list in Hin.
    destruct (decide (k = key)) as [->|Hne]; [reflexivity|].
    rewrite (Hm k Hne) in Hin. discriminate. }
  destruct (map_to_list m) as [|[k1 v1] [|[k2 v2] l]]; simpl; [lia|lia|].
  exfalso. inversion Hall as [|? ? Hk1 Hall']. inversion Hall' as [|? ? Hk2 _].
  simpl in *. subst. inversion Hnd as [|? ? Hnotin _]. apply Hnotin. left.
Qed.

Lemma fieldStep_jsonOnly `{UnicodeTables} (rho1 rho2 : RangeOrder)
    (st : bytes * list bytes) (field : ast.Field) :
  validOrder rho1 -> validOrder rho2 ->
  jsonOnly field -> fieldStep rho1 st field = fieldStep rho2 st field.
Proof.
  intros Hrho1 Hrho2 Hjson. destruct st as [buf names].
  rewrite !fieldStep_unfold.
  destruct (head (ast.Names field)) as [fieldName|]; [|reflexivity].
  cbn [mbind option_bind].
  destruct (ast.Type_ field) as [fieldType| | | | | |]; try reflexivity.
  destruct (tagValueOf field) as [tagValue|] eqn:Hv; [|reflexivity].
  cbn [mbind option_bind].
  destruct (synthesize fieldName (tagParser tagValue)) as [tags|] eqn:Hs;
    [|reflexivity].
  cbn [mbind option_bind]. unfold tagString.
  assert (length (map_to_list tags) <= 1)%nat as Hsmall.
  { apply (one_key_small tags (B "json")). intros k Hk.
    rewrite (synthesize_lookup_ne _ _ _ _ Hs Hk). apply (Hjson tagValue k Hv Hk). }
  rewrite (validOrder_small rho1 tags Hrho1 Hsmall).
  rewrite (validOrder_small rho2 tags Hrho2 Hsmall). reflexivity.
Qed.

Section OneKey.
Context `{UnicodeTables}.
Variable rhos1 : RangeOracle.
Variable rhos2 : RangeOracle.
Hypothesis Hrhos1 : validOracle rhos1.
Hypothesis Hrhos2 : validOracle rhos2.

Lemma emitSelected_jsonOnly (st : bytes * nat) (sel : bytes * list ast.Field) :
  Forall jsonOnly sel.2 ->
  emitSelected rhos1 st sel = emitSelected rhos2 st sel.
Proof.
  intros Hall. unfold emitSelected, emitStruct.
  rewrite (foldlM_ext (fieldIter (rhos1 st.2)) (fieldIter (rhos2 st.2)) sel.2);
    [reflexivity|].
  intros st' field Hfield. unfold fieldIter.
  apply fieldStep_jsonOnly; [apply Hrhos1|apply Hrhos2|].
  rewrite Forall_forall in Hall. apply Hall, Hfield.
Qed.

(** X8: when no field of a requested struct type has a tag key other than
    [json], the generated buffer does not depend on the orders in which the
    runtime ranges over the tag maps: every run gives the same bytes, or
    panics, alike. *)
Theorem generate_order_independent (args : list bytes) (pkgName : bytes)
    (types : list bytes) (files : list ast.File) :
  Forall (fun sel => Forall jsonOnly sel.2) (selected types files) ->
  generate rhos1 args pkgName types files
  = generate rhos2 args pkgName types files.
Proof.
  intros Hall. rewrite !generate_selected. f_equal. apply foldlM_ext.
  intros st sel Hsel. apply emitSelected_jsonOnly.
  rewrite Forall_forall in Hall. apply Hall, Hsel.
Qed.

End OneKey.

(** ** The result of [CamelToSnake] on ASCII identifiers *)

Lemma lowerByte_lowASCII (c : ascii) :
  byteZ c < 0x80 -> lowASCII (strings.lowerByte c) = true.
Proof.
  destruct c as [[] [] [] [] [] [] [] []]; vm_compute; congruence.
Qed.

Lemma lowerByte_id (c : ascii) :
  lowASCII c = true -> strings.lowerByte c = c.
Proof.
  unfold lowASCII, strings.lowerByte, between.
  intros [_ Hc]%andb_true_iff. apply negb_true_iff in Hc. rewrite Hc.
  reflexivity.
Qed.

Lemma lowASCII_isASCII (s : bytes) :
  forallb lowASCII s = true -> strings.isASCII s = true.
Proof.
  unfold strings.isASCII. rewrite !forallb_forall. intros Hs c Hc.
  specialize (Hs c Hc). unfold lowASCII in Hs.
  apply andb_true_iff in Hs as [Hs _]. exact Hs.
Qed.

Lemma lowASCII_Join (ws : list bytes) :
  Forall (fun w => forallb lowASCII w = true) ws ->
  forallb lowASCII (Join ws (B "_")) = true.
Proof.
  induction 1 as [|w ws Hw Hws IH]; [reflexivity|].
  destruct ws as [|w' ws]; [exact Hw|].
  change (Join (w :: w' :: ws) (B "_")) with (w ++ B "_" ++ Join (w' :: ws) (B "_")).
  rewrite !forallb_app, Hw, IH. reflexivity.
Qed.

Section Snake.
Context `{UnicodeTables}.

Lemma ToLower_lowASCII (w : bytes) :
  strings.isASCII w = true -> forallb lowASCII (strings.ToLower w) = true.
Proof.
  intros Hw. unfold strings.ToLower. rewrite Hw.
  apply isASCII_Forall in Hw. apply forallb_forall. intros c Hc.
  apply in_map_iff in Hc as (c0 & <- & Hc0). apply lowerByte_lowASCII.
  rewrite Forall_forall in Hw. apply Hw, list_elem_of_In, Hc0.
Qed.

Lemma IsUpper_lowASCII (c : ascii) :
  lowASCII c = true -> unicode.IsUpper (byteZ c) = false.
Proof.
  unfold lowASCII, between, unicode.IsUpper, unicode.latin1Upper,
    unicode.MaxLatin1, utf8.RuneSelf.
  intros [Hlt Hup]%andb_true_iff. apply Z.ltb_lt in Hlt.
  apply negb_true_iff in Hup.
  assert (0 <= byteZ c) as Hnn
    by (destruct c as [[] [] [] [] [] [] [] []]; vm_compute; congruence).
  destruct (Z.leb_spec 0 (byteZ c)); [|lia].
  destruct (Z.leb_spec (byteZ c) 255); [|lia]. cbn [andb].
  rewrite Hup. cbn [orb].
  destruct (Z.leb_spec 192 (byteZ c)); [lia|].
  destruct (Z.leb_spec 216 (byteZ c)); [lia|]. reflexivity.
Qed.

Lemma CamelToSnake_lowASCII (t : bytes) :
  forallb lowASCII t = true -> CamelToSnake t = Some t.
Proof.
  intros Ht. pose proof (lowASCII_isASCII t Ht) as Hascii.
  unfold CamelToSnake, camelWords.
  rewrite (scan_without_upper t) by
    first [lia |
      (intros i r _ Hr; rewrite runes_of_ascii in Hr by exact Hascii;
       apply list_lookup_fmap_Some in Hr as (c & -> & Hc);
       apply IsUpper_lowASCII;
       rewrite forallb_forall in Ht; apply Ht, list_elem_of_In;
       eapply list_elem_of_lookup_2, Hc)].
  cbn [mbind option_bind]. rewrite sliceFrom_0. cbn [mbind option_bind].
  assert (strings.ToLower t = t) as Hlow.
  { unfold strings.ToLower. rewrite Hascii.
    rewrite <- (map_id t) at 2. apply map_ext_in. intros c Hc.
    apply lowerByte_id. rewrite forallb_forall in Ht. apply Ht, Hc. }
  destruct t as [|c t]; [reflexivity|].
  rewrite bool_decide_eq_true_2 by discriminate.
  cbn [fmap option_fmap option_map app]. unfold joinWords. cbn [foldl fst].
  cbn [Nat.ltb Nat.leb]. cbn [app]. rewrite Hlow. reflexivity.
Qed.

(** X9: on an ASCII identifier [CamelToSnake] returns ASCII bytes without
    any upper-case letter, and converting the result once more leaves it as
    it is. *)
Theorem CamelToSnake_snake_case (s : bytes) :
  strings.isASCII s = true ->
  exists out,
    CamelToSnake s = Some out
    /\ forallb lowASCII out = true
    /\ CamelToSnake out = Some out.
Proof.
  intros Hs. destruct (camelWords_ascii s Hs) as (ws & Hws & Hcat & _).
  exists (Join (strings.ToLower <$> ws) (B "_")).
  assert (forallb lowASCII (Join (strings.ToLower <$> ws) (B "_")) = true) as Hlow.
  { apply lowASCII_Join, Forall_fmap, Forall_forall. intros w Hw. simpl.
    apply ToLower_lowASCII, isASCII_Forall, Forall_forall. intros c Hc.
    apply isASCII_Forall in Hs. rewrite Forall_forall in Hs. apply Hs.
    rewrite <- Hcat. apply list_elem_of_In, in_concat. exists w.
    split; apply list_elem_of_In; assumption. }
  split; [|split; [exact Hlow|apply CamelToSnake_lowASCII, Hlow]].
  unfold CamelToSnake. rewrite Hws. simpl. rewrite joinWords_Join. reflexivity.
Qed.

End Snake.

Lemma CamelToSnake_snake_case_witness :
  exists out,
    @CamelToSnake asciiTables (B "HTTPServerID") = Some out
    /\ forallb lowASCII out = true
    /\ @CamelToSnake asciiTables out = Some out.
Proof.
  apply (@CamelToSnake_snake_case asciiTables (B "HTTPServerID")). reflexivity.
Defined.

(** ** What [tagString] writes and what [tagParser] reads *)

Lemma text_Join (l : list (bytes * bytes)) :
  strings.TrimPrefix (text l) (B " ") = Join (render <$> l) (B " ").
Proof.
  destruct l as [|e l]; [reflexivity|].
  change (text (e :: l)) with (" "%char :: render e ++ text l).
  change (strings.TrimPrefix _ _) with (render e ++ text l).
  revert e. induction l as [|e' l IH]; intros e.
  - apply app_nil_r.
  - change (text (e' :: l)) with (B " " ++ render e' ++ text l).
    rewrite IH. reflexivity.
Qed.

(** X10: [tagString] writes the entries in the order in which the range
    visits them, separated by single spaces, with no space before the first
    or after the last: an entry with an empty value as its key alone, any
    other entry as the key, a colon and the value between double quotes. *)
Theorem tagString_Join (rho : RangeOrder) (tags : gmap bytes bytes) :
  tagString rho tags = Join (render <$> rho tags) (B " ").
Proof.
  unfold tagString. rewrite tagStringLoop_text. apply text_Join.
Qed.

(** *** Entries read by [tagParser] are within the grammar *)

Lemma matchStar_inv {R : Type} (p : ascii -> bool) (s : bytes)
    (caps : regexp.Caps) (K : bytes -> regexp.Caps -> option R) (x : R) :
  regexp.matchStar p s caps K = Some x ->
  exists w s', s = w ++ s' /\ forallb p w = true /\ K s' caps = Some x.
Proof.
  induction s as [|c s IH]; simpl.
  - intros HK. exists [], []. auto.
  - destruct (p c) eqn:Hc; [|intros HK; exists [], (c :: s); auto].
    destruct (regexp.matchStar p s caps K) as [y|] eqn:Hm.
    + intros [= ->]. destruct (IH eq_refl) as (w & s' & -> & Hw & HK).
      exists (c :: w), s'. simpl. rewrite Hc, Hw. auto.
    + intros HK. exists [], (c :: s). auto.
Qed.

(** The quoted value: group 4 is set to class characters, group 1 is left
    as it was. *)
Lemma matchAt_quoted_inv (s : bytes) (caps0 : regexp.Caps)
    (K : bytes -> regexp.Caps -> option (regexp.Caps * bytes))
    (caps : regexp.Caps) (rest : bytes) :
  (forall s' caps' caps rest,
     K s' caps' = Some (caps, rest) ->
     caps !! 1%nat = caps' !! 1%nat /\ caps !! 4%nat = caps' !! 4%nat) ->
  regexp.matchAt
    (regexp.Cat (regexp.Lit dquote)
       (regexp.Cat (regexp.Capture 4 (regexp.Star tagChar)) (regexp.Lit dquote)))
    s caps0 K = Some (caps, rest) ->
  caps !! 1%nat = caps0 !! 1%nat
  /\ exists v, caps !! 4%nat = Some v /\ forallb tagChar v = true.
Proof.
  intros HK. cbn [regexp.matchAt].
  destruct s as [|c s]; [discriminate|]. case_bool_decide; [|discriminate].
  intros Hm. apply matchStar_inv in Hm as (w & s' & -> & Hw & Hm).
  destruct s' as [|c' s']; [discriminate|].
  case_bool_decide; [|discriminate].
  apply HK in Hm as [H1 H4]. rewrite take_matched in H4.
  rewrite lookup_insert_ne in H1 by discriminate.
  rewrite lookup_insert_eq in H4. eauto.
Qed.

Lemma matchAt_Cat {R : Type} (r1 r2 : regexp.Regexp) (s : bytes)
    (caps : regexp.Caps) (K : bytes -> regexp.Caps -> option R) :
  regexp.matchAt (regexp.Cat r1 r2) s caps K
  = regexp.matchAt r1 s caps (fun s' caps' => regexp.matchAt r2 s' caps' K).
Proof. reflexivity. Qed.

Lemma matchAt_Capture {R : Type} (n : nat) (r : regexp.Regexp) (s : bytes)
    (caps : regexp.Caps) (K : bytes -> regexp.Caps -> option R) :
  regexp.matchAt (regexp.Capture n r) s caps K
  = regexp.matchAt r s caps
      (fun s' caps' => K s' (<[n := take (length s - length s') s]> caps')).
Proof. reflexivity. Qed.

Lemma matchAt_Lit_inv {R : Type} (c : ascii) (s : bytes)
    (caps : regexp.Caps) (K : bytes -> regexp.Caps -> option R) (x : R) :
  regexp.matchAt (regexp.Lit c) s caps K = Some x ->
  exists s', s = c :: s' /\ K s' caps = Some x.
Proof.
  destruct s as [|c' s']; simpl; [discriminate|].
  case_bool_decide as Hc; [|discriminate]. subst c'. eauto.
Qed.

Lemma matchAt_Quest_inv {R : Type} (r : regexp.Regexp) (s : bytes)
    (caps : regexp.Caps) (K : bytes -> regexp.Caps -> option R) (x : R) :
  regexp.matchAt (regexp.Quest r) s caps K = Some x ->
  regexp.matchAt r s caps K = Some x \/ K s caps = Some x.
Proof.
  simpl. destruct (regexp.matchAt r s caps K) as [y|]; auto.
Qed.

Lemma matchAt_Plus_inv {R : Type} (p : ascii -> bool) (s : bytes)
    (caps : regexp.Caps) (K : bytes -> regexp.Caps -> option R) (x : R) :
  regexp.matchAt (regexp.Plus p) s caps K = Some x ->
  exists c w s', s = (c :: w) ++ s' /\ forallb p (c :: w) = true
                 /\ K s' caps = Some x.
Proof.
  destruct s as [|c s]; simpl; [discriminate|].
  destruct (p c) eqn:Hc; [|discriminate].
  intros (w & s' & -> & Hw & HK)%matchStar_inv.
  exists c, w, s'. simpl. rewrite Hc. auto.
Qed.

(** The optional part of the pattern, when it takes part in the match. *)
Lemma matchAt_value_inv (s : bytes) (caps0 caps : regexp.Caps) (rest : bytes) :
  regexp.matchAt
    (regexp.Capture 2
       (regexp.Cat (regexp.Lit ":")
       (regexp.Cat (regexp.Quest (regexp.Capture 3 (regexp.Lit " ")))
       (regexp.Cat (regexp.Lit dquote)
       (regexp.Cat (regexp.Capture 4 (regexp.Star tagChar))
                   (regexp.Lit dquote))))))
    s caps0 matched = Some (caps, rest) ->
  caps !! 1%nat = caps0 !! 1%nat
  /\ exists v, caps !! 4%nat = Some v /\ forallb tagChar v = true.
Proof.
  assert (forall (t : bytes -> bytes) s0 caps' caps rest,
            matched s0 (<[2%nat := t s0]> caps') = Some (caps, rest) ->
            caps !! 1%nat = caps' !! 1%nat /\ caps !! 4%nat = caps' !! 4%nat)
    as Hend.
  { intros t s0 caps' caps2 rest2 [= <- _].
    rewrite !lookup_insert_ne by discriminate. auto. }
  rewrite matchAt_Capture, matchAt_Cat.
  intros (s1 & -> & Hm)%matchAt_Lit_inv.
  rewrite matchAt_Cat in Hm. apply matchAt_Quest_inv in Hm as [Hm|Hm].
  - rewrite matchAt_Capture in Hm.
    apply matchAt_Lit_inv in Hm as (s2 & -> & Hm).
    apply matchAt_quoted_inv in Hm as [Hk Hv].
    + rewrite lookup_insert_ne in Hk by discriminate. auto.
    + intros s' caps' caps2 rest2. apply (Hend (fun s0 => take _ _)).
  - apply matchAt_quoted_inv in Hm; [exact Hm|].
    intros s' caps' caps2 rest2. apply (Hend (fun s0 => take _ _)).
Qed.

Lemma matchAt_tagRegex_inv (s : bytes) (caps : regexp.Caps) (rest : bytes) :
  regexp.matchAt tagRegex s ∅ matched = Some (caps, rest) ->
  wfTag (regexp.submatch caps 1) (regexp.submatch caps 4).
Proof.
  unfold tagRegex. rewrite matchAt_Cat, matchAt_Capture.
  intros (c & w & s' & -> & Hkey & Hm)%matchAt_Plus_inv.
  rewrite take_matched in Hm.
  assert (caps !! 1%nat = Some (c :: w)
          /\ (caps !! 4%nat = None
              \/ exists v, caps !! 4%nat = Some v /\ forallb tagChar v = true))
    as [H1 H4].
  { apply matchAt_Quest_inv in Hm as [Hm|Hm].
    - apply matchAt_value_inv in Hm as [Hk Hv].
      rewrite lookup_insert_eq in Hk. auto.
    - injection Hm as <- _. rewrite lookup_insert_eq.
      rewrite lookup_insert_ne, lookup_empty by discriminate. auto. }
  unfold wfTag, regexp.submatch. rewrite H1. simpl default.
  split; [discriminate|]. split; [exact Hkey|].
  destruct H4 as [->|(v & -> & Hv)]; [reflexivity|exact Hv].
Qed.

Lemma search_wf (s : bytes) (caps : regexp.Caps) (rest : bytes) :
  regexp.search tagRegex s = Some (caps, rest) ->
  wfTag (regexp.submatch caps 1) (regexp.submatch caps 4).
Proof.
  induction s as [|c s IH]; rewrite search_unfold.
  - destruct (regexp.matchAt tagRegex [] ∅ matched) as [[caps' rest']|] eqn:Hm;
      [|discriminate].
    intros [= -> ->]. apply (matchAt_tagRegex_inv _ _ _ Hm).
  - destruct (regexp.matchAt tagRegex (c :: s) ∅ matched)
      as [[caps' rest']|] eqn:Hm; [|exact IH].
    intros [= -> ->]. apply (matchAt_tagRegex_inv _ _ _ Hm).
Qed.

Lemma allMatches_wf (fuel : nat) (s : bytes) :
  Forall (fun e => wfTag e.1 e.2) (entryOf <$> regexp.allMatches fuel tagRegex s).
Proof.
  revert s. induction fuel as [|fuel IH]; intros s; simpl; [constructor|].
  destruct (regexp.search tagRegex s) as [[caps rest]|] eqn:Hs; [|constructor].
  rewrite fmap_cons. constructor; [|apply IH].
  apply (search_wf _ _ _ Hs).
Qed.

Lemma tagParser_entries (input : bytes) :
  tagParser input
  = foldl (fun (tags : gmap bytes bytes) e => <[e.1 := e.2]> tags) ∅
      (entryOf <$> regexp.FindAllStringSubmatch tagRegex input).
Proof. unfold tagParser. rewrite foldl_fmap. reflexivity. Qed.

Lemma foldl_insert_wf (l : list (bytes * bytes)) :
  Forall (fun e => wfTag e.1 e.2) l ->
  forall (tags : gmap bytes bytes),
    (forall k v, tags !! k = Some v -> wfTag k v) ->
    forall k v,
      foldl (fun (tags : gmap bytes bytes) e => <[e.1 := e.2]> tags) tags l !! k
      = Some v ->
      wfTag k v.
Proof.
  induction 1 as [|[k0 v0] l Hwf Hl IH]; intros tags Htags k v; simpl.
  - apply Htags.
  - apply IH. intros k1 v1. destruct (decide (k0 = k1)) as [->|Hne].
    + rewrite lookup_insert_eq. intros [= <-]. exact Hwf.
    + rewrite lookup_insert_ne by exact Hne. apply Htags.
Qed.

Lemma tagParser_wf (input k v : bytes) :
  tagParser input !! k = Some v -> wfTag k v.
Proof.
  rewrite tagParser_entries. apply foldl_insert_wf.
  - apply allMatches_wf.
  - intros k' v'. rewrite lookup_empty. discriminate.
Qed.

(** X11: whatever the input, every key that [tagParser] returns is
    non-empty and made of characters of the class of [tagRegex], and so is
    every value, which may be empty. *)
Theorem tagParser_within_grammar (input k v : bytes) :
  tagParser input !! k = Some v ->
  k <> [] /\ forallb tagChar k = true /\ forallb tagChar v = true.
Proof. apply tagParser_wf. Qed.

(** *** Repeated keys *)

Lemma foldl_insert_reverse (l : list (bytes * bytes)) :
  foldl (fun (tags : gmap bytes bytes) e => <[e.1 := e.2]> tags) ∅ l
  = list_to_map (reverse l).
Proof.
  induction l as [|[k v] l IH] using rev_ind; [reflexivity|].
  rewrite foldl_snoc, IH, reverse_snoc. reflexivity.
Qed.

(** X12: for entries within the grammar, [tagParser] reads the text of
    [tagString] back entry by entry, and when a key is repeated its last
    occurrence wins. *)
Theorem tagParser_last_wins (l : list (bytes * bytes)) :
  Forall (fun e => wfTag e.1 e.2) l ->
  tagParser (Join (render <$> l) (B " ")) = list_to_map (reverse l).
Proof.
  intros Hl. rewrite <- text_Join, tagParser_entries, FindAll_trimmed by exact Hl.
  apply foldl_insert_reverse.
Qed.

(** X13: printing what [tagParser] read and parsing it again gives the same
    tags, for every input and every order of the range over the map. *)
Theorem tagParser_stable (rho : RangeOrder) (input : bytes) :
  validOrder rho ->
  tagParser (tagString rho (tagParser input)) = tagParser input.
Proof.
  intros Hrho. set (m := tagParser input).
  unfold tagString. rewrite tagStringLoop_text, tagParser_text.
  - rewrite <- (list_to_map_to_list m) at 2.
    apply list_to_map_proper; [|apply Hrho].
    rewrite (Hrho m). apply NoDup_fst_map_to_list.
  - apply Forall_forall. intros [k v] Hin.
    rewrite (Hrho m) in Hin. apply elem_of_map_to_list in Hin.
    apply (tagParser_wf input k v Hin).
  - rewrite (Hrho m). apply NoDup_fst_map_to_list.
Qed.

(** ** Runs of [main] *)

Lemma splitOn_cons (sep : ascii) (s cur : bytes) :
  exists first more, splitOn sep cur s = first :: more.
Proof.
  revert cur. induction s as [|c s IH]; intros cur; simpl; [eauto|].
  case_bool_decide; [eauto|apply IH].
Qed.

Section Runs.
Context `{UnicodeTables} `{Environment}.
Variable rhos : RangeOracle.

Lemma parseFiles_Ok (f : bytes -> bytes) (names : list bytes)
    (files : list ast.File) :
  parseFiles (map f names) = Ok files
  <-> Forall2 (fun name file => parserParseFile (f name) = Ok file) names files.
Proof.
  revert files. induction names as [|name names IH]; intros files; simpl.
  - split.
    + intros [= <-]. constructor.
    + intros Hall. inversion Hall. reflexivity.
  - destruct (parserParseFile (f name)) as [parsedFile|err] eqn:Hparse.
    + destruct (parseFiles (map f names)) as [files'|e] eqn:Hrest.
      * split.
        -- intros [= <-]. constructor; [exact Hparse|]. apply IH. reflexivity.
        -- intros Hall. inversion Hall as [|? file ? fs Hf Hfs]; subst.
           apply IH in Hfs. congruence.
      * split; [discriminate|].
        intros Hall. inversion Hall as [|? file ? fs Hf Hfs]; subst.
        apply IH in Hfs. discriminate.
    + split; [discriminate|].
      intros Hall. inversion Hall as [|? file ? fs Hf Hfs]; subst. congruence.
Qed.

(** The checks that [main] makes before it generates anything: they pass
    with the directory [dir], the package name [pkgName] and the parsed
    [files]. *)
Lemma main_checked (osArgs : list bytes) (typeNames output : bytes)
    (flagArgs : list bytes) (o : Outcome) :
  main rhos osArgs typeNames output flagArgs = o ->
  (forall stderr, o <> Fatal stderr) -> o <> ExitUsage ->
  exists dir pkgName goFiles files,
    typeNames <> []
    /\ (flagArgs = [dir] \/ flagArgs = [] /\ dir = B ".")
    /\ osStatIsDir dir = Ok true
    /\ buildImportDir dir = Ok (pkgName, goFiles)
    /\ parseFiles (map (prefixDirectory dir) goFiles) = Ok files
    /\ o = match generate rhos osArgs pkgName (Split typeNames ",") files with
           | None => Panic
           | Some buf => writeOutput output dir (Split typeNames ",") buf
           end.
Proof.
  unfold main. intros Hmain Hfatal Husage.
  case_bool_decide as Htypes; [congruence|].
  assert (exists dir,
    (if bool_decide (length flagArgs = 0%nat) then [B "."] else flagArgs) = [dir]
    /\ (flagArgs = [dir] \/ flagArgs = [] /\ dir = B ".")) as (dir & Hargs & Hdir).
  { destruct flagArgs as [|d [|d' l]].
    - exists (B "."). auto.
    - exists d. auto.
    - exfalso. simpl in Hmain. apply (Hfatal _ (eq_sym Hmain)). }
  rewrite Hargs in Hmain.
  destruct (osStatIsDir dir) as [[|]|err] eqn:Hstat;
    [|exfalso; apply (Hfatal _ (eq_sym Hmain))..].
  destruct (buildImportDir dir) as [[pkgName goFiles]|err] eqn:Himport;
    [|exfalso; apply (Hfatal _ (eq_sym Hmain))].
  destruct (parseFiles (map (prefixDirectory dir) goFiles)) as [files|msg]
    eqn:Hparse; [|exfalso; apply (Hfatal _ (eq_sym Hmain))].
  exists dir, pkgName, goFiles, files.
  repeat split; try assumption; try reflexivity.
  - intros ->. apply Htypes. reflexivity.
  - symmetry. exact Hmain.
Qed.

(** Conversely, when the checks pass [main] goes on to generate. *)
Lemma main_generates (osArgs : list bytes) (typeNames output : bytes)
    (flagArgs : list bytes) (dir pkgName : bytes) (goFiles : list bytes)
    (files : list ast.File) :
  typeNames <> [] ->
  (flagArgs = [dir] \/ flagArgs = [] /\ dir = B ".") ->
  osStatIsDir dir = Ok true ->
  buildImportDir dir = Ok (pkgName, goFiles) ->
  Forall2 (fun name file =>
             parserParseFile (prefixDirectory dir name) = Ok file)
    goFiles files ->
  main rhos osArgs typeNames output flagArgs
  = match generate rhos osArgs pkgName (Split typeNames ",") files with
    | None => Panic
    | Some buf => writeOutput output dir (Split typeNames ",") buf
    end.
Proof.
  intros Htypes Hdir Hstat Himport Hparse.
  unfold main. rewrite bool_decide_eq_false_2
    by (destruct typeNames; [congruence|discriminate]).
  assert ((if bool_decide (length flagArgs = 0%nat) then [B "."] else flagArgs)
          = [dir]) as ->
    by (destruct Hdir as [->|[-> ->]]; reflexivity).
  rewrite Hstat, Himport.
  apply parseFiles_Ok in Hparse. rewrite Hparse. reflexivity.
Qed.

(** X14: in every run of [main] that returns, whatever order each range
    over a tag map takes, every check has passed, and the bytes written are
    what gofmt made of the header followed by the blocks of the requested
    struct types of the parsed files, or that text as it is, with two
    warnings, when gofmt rejected it; without [-output], the file is named
    after the first requested type, in lower case, in the directory of the
    package. *)
Theorem main_Return (osArgs : list bytes) (typeNames output : bytes)
    (flagArgs : list bytes) (outputName src : bytes) (stderr : list bytes) :
  validOracle rhos ->
  main rhos osArgs typeNames output flagArgs = Return outputName src stderr ->
  exists dir pkgName goFiles files blocks first more,
    typeNames <> []
    /\ (flagArgs = [dir] \/ flagArgs = [] /\ dir = B ".")
    /\ osStatIsDir dir = Ok true
    /\ buildImportDir dir = Ok (pkgName, goFiles)
    /\ Forall2 (fun name file =>
                  parserParseFile (prefixDirectory dir name) = Ok file)
         goFiles files
    /\ Forall2 structBlock (selected (Split typeNames ",") files) blocks
    /\ format (header osArgs pkgName ++ concat blocks) = (src, stderr)
    /\ Split typeNames "," = first :: more
    /\ outputName
       = (if bool_decide (output = [])
          then filepathJoin dir (strings.ToLower (first ++ B "_json.go"))
          else output)
    /\ ioutilWriteFile outputName src = None.
Proof.
  intros Hrhos Hmain.
  apply main_checked in Hmain
    as (dir & pkgName & goFiles & files & Htypes & Hdir & Hstat & Himport
        & Hparse & Hout); [|discriminate..].
  destruct (generate rhos osArgs pkgName (Split typeNames ",") files)
    as [buf|] eqn:Hgen; [|discriminate].
  apply generate_blocks in Hgen as (blocks & -> & Hblocks); [|exact Hrhos].
  destruct (splitOn_cons "," typeNames []) as (first & more & Hsplit).
  fold (Split typeNames ",") in Hsplit.
  exists dir, pkgName, goFiles, files, blocks, first, more.
  unfold writeOutput in Hout. rewrite Hsplit in Hout.
  destruct (format (header osArgs pkgName ++ concat blocks))
    as [src' stderr'] eqn:Hformat.
  cbn [head default] in Hout.
  destruct (ioutilWriteFile _ src') as [err|] eqn:Hwrite; [discriminate|].
  injection Hout as -> -> ->.
  apply parseFiles_Ok in Hparse.
  repeat split; try assumption; try reflexivity.
Qed.

(** X15: a run of [main] panics in one case only: every check has passed,
    and a requested struct type of the parsed files has an embedded field,
    or a field of an identifier type whose tag literal is shorter than its
    two quotes. *)
Theorem main_Panic (osArgs : list bytes) (typeNames output : bytes)
    (flagArgs : list bytes) :
  main rhos osArgs typeNames output flagArgs = Panic
  <-> exists dir pkgName goFiles files,
        typeNames <> []
        /\ (flagArgs = [dir] \/ flagArgs = [] /\ dir = B ".")
        /\ osStatIsDir dir = Ok true
        /\ buildImportDir dir = Ok (pkgName, goFiles)
        /\ Forall2 (fun name file =>
                      parserParseFile (prefixDirectory dir name) = Ok file)
             goFiles files
        /\ Exists (fun sel => Exists (fun f => fieldPanics f = true) sel.2)
             (selected (Split typeNames ",") files).
Proof.
  split.
  - intros Hmain.
    apply main_checked in Hmain
      as (dir & pkgName & goFiles & files & Htypes & Hdir & Hstat & Himport
          & Hparse & Hout); [|discriminate..].
    exists dir, pkgName, goFiles, files.
    apply parseFiles_Ok in Hparse.
    repeat split; try assumption.
    apply (generate_None rhos osArgs pkgName).
    destruct (generate rhos osArgs pkgName (Split typeNames ",") files)
      as [buf|]; [|reflexivity].
    exfalso. unfold writeOutput in Hout.
    destruct (format buf) as [src stderr].
    destruct (ioutilWriteFile _ src); discriminate.
  - intros (dir & pkgName & goFiles & files & Htypes & Hdir & Hstat & Himport
            & Hparse & Hpanic).
    rewrite (main_generates osArgs typeNames output flagArgs dir pkgName
               goFiles files) by assumption.
    apply (generate_None rhos osArgs pkgName) in Hpanic. rewrite Hpanic.
    reflexivity.
Qed.

End Runs.

(** ** Runs with a requested name that has no struct declaration *)





(** ** Structs whose fields all have identifier types *)

Section Ident.
Context `{UnicodeTables}.
Variable rhos : FieldOrders.



End Ident.

(** X17: [synthesize] returns for every field name and every tag map, and
    the tags it returns have a [json] entry: every line of a mirror type
    carries a [json] key. *)
Theorem synthesize_json_present `{UnicodeTables} (fieldName : bytes)
    (tags : gmap bytes bytes) :
  exists tags' jsonTag,
    synthesize fieldName tags = Some tags'
    /\ tags' !! B "json" = Some jsonTag.
Proof.
  destruct (synthesize_returns fieldName tags) as (tags' & Hs & [jsonTag Hj]).
  exists tags', jsonTag. split; assumption.
Qed.

(** ** The theorems above on concrete inputs *)

Lemma constOracle_valid (rho : RangeOrder) :
  validOrder rho -> validOracle (constOracle rho).
Proof. intros Hrho k i. exact Hrho. Qed.

Lemma alternating_valid : validOracle alternating.
Proof.
  intros k i. unfold alternating.
  destruct (Nat.even i); [apply listOrder_valid|apply reverseOrder_valid].
Qed.

(** In the run [alternating] the equal tag maps of the two fields of [Twin]
    are printed in two different orders. *)
Lemma generate_shape_witness :
  exists blocks,
    @generate asciiTables alternating [B "-type=Twin"] (B "main") [B "Twin"]
      [twinFile]
    = Some (header [B "-type=Twin"] (B "main")
            ++ lines
                 [B "type TwinJSON struct {";
                  B "A int `json:" ++ quoted "x" ++ B " db:" ++ quoted "y"
                    ++ B "`";
                  B "B int `db:" ++ quoted "y" ++ B " json:" ++ quoted "x"
                    ++ B "`";
                  B "}";
                  [];
                  B "func (m Twin) MarshalJSON() ([]byte, error) {";
                  tab ++ B "j := NewTwinJSON(&m)";
                  tab ++ B "return json.Marshal(j)";
                  B "}";
                  [];
                  B "func NewTwinJSON(m *Twin) *TwinJSON {";
                  tab ++ B "v := &TwinJSON{}";
                  tab ++ B "v.A = m.A";
                  tab ++ B "v.B = m.B";
                  B "return v";
                  B "}";
                  []])
    /\ header [B "-type=Twin"] (B "main")
       ++ lines
            [B "type TwinJSON struct {";
             B "A int `json:" ++ quoted "x" ++ B " db:" ++ quoted "y" ++ B "`";
             B "B int `db:" ++ quoted "y" ++ B " json:" ++ quoted "x" ++ B "`";
             B "}";
             [];
             B "func (m Twin) MarshalJSON() ([]byte, error) {";
             tab ++ B "j := NewTwinJSON(&m)";
             tab ++ B "return json.Marshal(j)";
             B "}";
             [];
             B "func NewTwinJSON(m *Twin) *TwinJSON {";
             tab ++ B "v := &TwinJSON{}";
             tab ++ B "v.A = m.A";
             tab ++ B "v.B = m.B";
             B "return v";
             B "}";
             []]
       = header [B "-type=Twin"] (B "main") ++ concat blocks
    /\ Forall2 (@structBlock asciiTables) (selected [B "Twin"] [twinFile])
         blocks.
Proof.
  match goal with
  | |- exists blocks, ?g = Some ?out /\ _ =>
    assert (g = Some out) as Hout by (vm_compute; reflexivity);
    destruct (@generate_shape asciiTables alternating _ _ _ _ _
                alternating_valid Hout) as (blocks & Hblocks)
  end.
  exists blocks. split; [exact Hout|exact Hblocks].
Defined.

Lemma generate_panics_witness :
  @generate asciiTables (constOracle listOrder) [B "-type=Buffer"] (B "main")
    [B "Buffer"] [embeddedFile] = None.
Proof.
  apply (proj2 (@generate_panics asciiTables (constOracle listOrder)
                  [B "-type=Buffer"] (B "main") [B "Buffer"] [embeddedFile])).
  apply Exists_cons_hd. apply Exists_cons_hd. reflexivity.
Defined.

Lemma generate_order_independent_witness :
  @generate asciiTables alternating [B "-type=User"] (B "main") [B "User"]
    [userFile]
  = @generate asciiTables (constOracle reverseOrder) [B "-type=User"]
      (B "main") [B "User"] [userFile].
Proof.
  apply (@generate_order_independent asciiTables alternating
           (constOracle reverseOrder) alternating_valid
           (constOracle_valid reverseOrder reverseOrder_valid)).
  change (selected [B "User"] [userFile]) with [(B "User", userFields)].
  constructor; [|constructor]. cbn [snd]. unfold userFields.
  constructor; [|constructor; [|constructor]].
  - intros tagValue k [= <-] _. reflexivity.
  - intros tagValue k Hv Hk. vm_compute in Hv. injection Hv as <-.
    replace (tagParser _)
      with (<[B "json" := B ",omitempty"]> (∅ : gmap bytes bytes))
      by (vm_compute; reflexivity).
    rewrite lookup_insert_ne by (intros Heq; apply Hk; symmetry; exact Heq).
    apply lookup_empty.
Defined.

Lemma tagParser_within_grammar_witness :
  B "json" <> [] /\ forallb tagChar (B "json") = true
  /\ forallb tagChar (B "name,omitempty") = true.
Proof.
  apply (tagParser_within_grammar
           (B "-- json:" ++ quoted "name,omitempty" ++ B " !")
           (B "json") (B "name,omitempty")).
  vm_compute. reflexivity.
Defined.

Lemma tagParser_last_wins_witness :
  tagParser (Join (render <$> repeatedEntries) (B " "))
  = list_to_map (reverse repeatedEntries).
Proof.
  apply (tagParser_last_wins repeatedEntries).
  repeat constructor; discriminate.
Defined.

Lemma tagParser_stable_witness :
  tagParser (tagString reverseOrder
               (tagParser (B "db:" ++ quoted "name" ++ B " json:" ++ quoted ",omitempty")))
  = tagParser (B "db:" ++ quoted "name" ++ B " json:" ++ quoted ",omitempty").
Proof. apply (tagParser_stable reverseOrder), reverseOrder_valid. Defined.


Lemma main_Return_witness :
  exists outputName src stderr,
    @main asciiTables (oneFile twinFile) alternating [B "-type=Twin"] (B "Twin")
      [] [] = Return outputName src stderr
    /\ outputName = B "twin_json.go"
    /\ exists blocks,
         Forall2 (@structBlock asciiTables)
           (selected (Split (B "Twin") ",") [twinFile]) blocks
         /\ src = header [B "-type=Twin"] (B "main") ++ concat blocks.
Proof.
  assert (exists outputName src stderr,
    @main asciiTables (oneFile twinFile) alternating [B "-type=Twin"] (B "Twin")
      [] [] = Return outputName src stderr) as (outputName & src & stderr & Hrun)
    by (eexists _, _, _; vm_compute; reflexivity).
  destruct (@main_Return asciiTables (oneFile twinFile) alternating _ _ _ _ _ _ _
              alternating_valid Hrun)
    as (dir & pkgName & goFiles & files & blocks & first & more & _ & Hdir
        & _ & Himport & Hparse & Hblocks & Hformat & Hsplit & Hname & _).
  exists outputName, src, stderr. split; [exact Hrun|].
  destruct Hdir as [Hdir|[_ ->]]; [discriminate|].
  injection Himport as <- <-. injection Hsplit as <- <-.
  inversion Hparse as [|? file ? files' Hfile Hfiles]; subst.
  inversion Hfiles; subst. injection Hfile as <-.
  split; [reflexivity|]. exists blocks. split; [exact Hblocks|].
  injection Hformat as <- _. reflexivity.
Defined.

Lemma main_Panic_witness :
  @main asciiTables (oneFile embeddedFile) (constOracle listOrder)
    [B "-type=Buffer"] (B "Buffer") [] [] = Panic.
Proof.
  apply (proj2 (@main_Panic asciiTables (oneFile embeddedFile)
                  (constOracle listOrder) [B "-type=Buffer"] (B "Buffer")
                  [] [])).
  exists (B "."), (B "main"), [B "kind.go"], [embeddedFile].
  split; [discriminate|]. split; [right; split; reflexivity|].
  split; [reflexivity|]. split; [reflexivity|].
  split; [repeat constructor|].
  apply Exists_cons_hd. apply Exists_cons_hd. reflexivity.
Defined.


(** ** The line of a field with no tag key but [json] *)

Section JsonLine.
Context `{UnicodeTables}.
Variable rho : RangeOrder.
Hypothesis Hrho : validOrder rho.

Lemma synthesize_jsonValue (fieldName label : bytes) (tags : gmap bytes bytes) :
  CamelToSnake fieldName = Some label ->
  (forall k, k <> B "json" -> tags !! k = None) ->
  synthesize fieldName tags
  = Some {[B "json" := jsonValue label (tags !! B "json")]}.
Proof.
  intros Hlabel Honly. unfold synthesize. rewrite Hlabel.
  cbn [mbind option_bind].
  assert (forall v, tags !! B "json" = Some v -> tags = {[B "json" := v]}) as Hone.
  { intros v Hv. apply map_eq. intros k.
    destruct (decide (k = B "json")) as [->|Hk].
    - rewrite lookup_singleton_eq. exact Hv.
    - rewrite lookup_singleton_ne by (intros Heq; apply Hk; symmetry; exact Heq).
      apply Honly, Hk. }
  destruct (tags !! B "json") as [jsonTag|] eqn:Hjson; unfold jsonValue.
  - rewrite (Hone jsonTag eq_refl).
    destruct (strings.HasPrefix jsonTag (B ",")); [|reflexivity].
    rewrite insert_singleton_eq. reflexivity.
  - assert (tags = ∅) as ->; [|rewrite insert_empty; reflexivity].
    apply map_eq. intros k. rewrite lookup_empty.
    destruct (decide (k = B "json")) as [->|Hk]; [exact Hjson|apply Honly, Hk].
Qed.

Lemma tagString_singleton (k v : bytes) :
  v <> [] ->
  tagString rho {[k := v]} = k ++ B ":" ++ [dquote] ++ v ++ [dquote].
Proof.
  intros Hv. unfold tagString.
  rewrite (validOrder_small rho _ Hrho)
    by (rewrite map_to_list_singleton; simpl; lia).
  rewrite map_to_list_singleton. unfold tagStringLoop. cbn [foldl].
  rewrite bool_decide_eq_false_2 by exact Hv. reflexivity.
Qed.

(** X18: for a field of an identifier type whose tag has no key but
    [json], or no tag at all, the line of the mirror type is the first
    name of the field, its type, and the one tag [json] between backquotes,
    with the snake-case name of the field as value when the source gives
    none, the snake-case name put before a value that begins with a comma,
    and any other value as the source has it. *)
Theorem fieldStep_json_line (buf : bytes) (fieldNames : list bytes)
    (field : ast.Field) (fieldName fieldType tagValue label : bytes) :
  head (ast.Names field) = Some fieldName ->
  ast.Type_ field = ast.Ident fieldType ->
  tagValueOf field = Some tagValue ->
  jsonOnly field ->
  CamelToSnake fieldName = Some label ->
  jsonValue label (tagParser tagValue !! B "json") <> [] ->
  fieldStep rho (buf, fieldNames) field
  = Some (buf ++ fieldName ++ B " " ++ fieldType ++ B " " ++ backquote
              ++ B "json:" ++ [dquote]
              ++ jsonValue label (tagParser tagValue !! B "json")
              ++ [dquote] ++ backquote ++ nl,
          fieldNames ++ [fieldName]).
Proof.
  intros Hname Hty Hv Honly Hlabel Hvalue.
  rewrite fieldStep_unfold, Hname. cbn [mbind option_bind].
  rewrite Hty, Hv. cbn [mbind option_bind].
  rewrite (synthesize_jsonValue fieldName label _ Hlabel)
    by (intros k Hk; apply (Honly tagValue k Hv Hk)).
  cbn [mbind option_bind]. rewrite (tagString_singleton _ _ Hvalue).
  rewrite <- !app_assoc. reflexivity.
Qed.

End JsonLine.

Lemma fieldStep_json_line_witness :
  @fieldStep asciiTables listOrder ([], [])
    (ast.mkField [B "UserName"] (ast.Ident (B "string"))
       (tagLit (B "json:" ++ quoted ",omitempty")))
  = Some (B "UserName string `json:" ++ quoted "user_name,omitempty" ++ B "`"
            ++ nl,
          [B "UserName"]).
Proof.
  apply (@fieldStep_json_line asciiTables listOrder listOrder_valid [] []
           (ast.mkField [B "UserName"] (ast.Ident (B "string"))
              (tagLit (B "json:" ++ quoted ",omitempty")))
           (B "UserName") (B "string") (B "json:" ++ quoted ",omitempty")
           (B "user_name")).
  - reflexivity.
  - reflexivity.
  - vm_compute. reflexivity.
  - intros tagValue k Hv Hk. vm_compute in Hv. injection Hv as <-.
    replace (tagParser _)
      with (<[B "json" := B ",omitempty"]> (∅ : gmap bytes bytes))
      by (vm_compute; reflexivity).
    rewrite lookup_insert_ne by (intros Heq; apply Hk; symmetry; exact Heq).
    apply lookup_empty.
  - vm_compute. reflexivity.
  - vm_compute. discriminate.
Defined.
